(** * Pomace: adaptive locators, action dispatch and page identification

    A shallow embedding of [pomace/models.py]: the [Locator], [Action],
    [Locators] and [Page] data classes, the scoring and clean-up rules,
    the ordered-fallback dispatch of an action and the [auto] page
    disambiguation, followed by the properties proved about them.

    Python integers are unbounded and are modelled by [Z]; Python lists by
    [list]; a Python object that is mutated while it sits in a list is
    addressed by its position in that list. *)

From Stdlib Require Import ZArith Bool List Ascii String Lia Permutation Sorted.
From stdpp Require Import base list strings.
Import ListNotations.
Local Open Scope string_scope.
Local Open Scope list_scope.
Local Open Scope Z_scope.

(** ** Python helpers *)

(** [seq[i]] for a Python sequence: negative indices count from the end,
    anything else out of range raises (here: [None]).  The element lists
    returned by the browser raise [ElementDoesNotExist] in that case. *)
Definition getitem {A : Type} (l : list A) (i : Z) : option A :=
  let n := Z.of_nat (length l) in
  if 0 <=? i then l !! Z.to_nat i
  else if - n <=? i then l !! Z.to_nat (n + i)
  else None.

(** [bool(s)] for a string. *)
Definition str_bool (s : string) : bool :=
  match s with
  | EmptyString => false
  | String _ _ => true
  end.

(** [c in s] for a one-character needle. *)
Fixpoint str_contains (c : Ascii.ascii) (s : string) : bool :=
  match s with
  | EmptyString => false
  | String d s' => if Ascii.eqb c d then true else str_contains c s'
  end.

(** [list.remove(x)]: drops the first element equal to [x] under the
    element type's [__eq__]; raises [ValueError] (here: [None]) when no
    element is equal to [x]. *)
Fixpoint list_remove {A : Type} (eqb : A -> A -> bool) (x : A) (l : list A)
  : option (list A) :=
  match l with
  | [] => None
  | y :: l' =>
      if eqb y x then Some l'
      else match list_remove eqb x l' with
           | Some r => Some (y :: r)
           | None => None
           end
  end.

(** [for x in xs: l.remove(x)], stopping at the first [ValueError]. *)
Fixpoint remove_each {A : Type} (eqb : A -> A -> bool) (xs l : list A)
  : option (list A) :=
  match xs with
  | [] => Some l
  | x :: xs' =>
      match list_remove eqb x l with
      | Some l' => remove_each eqb xs' l'
      | None => None
      end
  end.

(** [l1 == l2] for Python lists, elementwise under the elements' [__eq__]. *)
Fixpoint list_eqb {A : Type} (eqb : A -> A -> bool) (l1 l2 : list A) : bool :=
  match l1, l2 with
  | [], [] => true
  | x :: l1', y :: l2' => eqb x y && list_eqb eqb l1' l2'
  | _, _ => false
  end.

(** [sorted(l, reverse=True)] under a key: a stable sort into descending
    order, so elements with equal keys keep their original relative
    order.  [insert_desc] puts [x] in front of the first element whose key
    does not exceed the key of [x]. *)
Fixpoint insert_desc {A : Type} (key : A -> Z) (x : A) (l : list A) : list A :=
  match l with
  | [] => [x]
  | y :: l' =>
      if key y <=? key x then x :: y :: l'
      else y :: insert_desc key x l'
  end.

Fixpoint sorted_reverse {A : Type} (key : A -> Z) (l : list A) : list A :=
  match l with
  | [] => []
  | x :: l' => insert_desc key x (sorted_reverse key l')
  end.

(** [enumerate(l)] starting at position [i]. *)
Fixpoint enumerate_from {A : Type} (i : nat) (l : list A) : list (nat * A) :=
  match l with
  | [] => []
  | x :: l' => (i, x) :: enumerate_from (S i) l'
  end.

Definition enumerate {A : Type} (l : list A) : list (nat * A) :=
  enumerate_from 0 l.

(** ** The browser and the other collaborators *)

(** An element handle as the core sees it: its visibility and its markup
    (the latter only feeds log messages). *)
Record Element := mkElement {
  visible : bool;
  outer_html : string
}.

(** What [models.py] calls on [shared.browser], [Mode], [Verb] and [URL],
    whose modules are outside the modelled file. *)
Class Driver := {
  Browser : Type;
  Args : Type;
  (** [shared.browser.url] *)
  browser_url : Browser -> string;
  (** [shared.browser.visit(url)] *)
  browser_visit : string -> Browser -> Browser;
  (** [Mode(mode).finder(value)]: the matching elements, in document order *)
  finder : Browser -> string -> string -> list Element;
  (** [getattr(element, verb)] applied to the call's arguments: [true]
      when the call returns, [false] when it raises [ElementDoesNotExist],
      [ElementNotInteractableException] or [WebDriverException] *)
  call_verb : string -> Args -> Element -> Browser -> bool * Browser;
  (** [ActionChains(driver).send_keys(getattr(Keys, name.upper())).perform()] *)
  send_keys : string -> Args -> Browser -> bool * Browser;
  (** [Verb(verb).post_action(previous_url, wait)] *)
  post_action : string -> string -> Args -> Browser -> Browser;
  (** [Verb.TYPE.value] and [Verb(verb).updates] *)
  Verb_TYPE : string;
  Verb_updates : string -> bool;
  (** [URL(url).domain], [URL(url).path], [URL(url).fragment] *)
  URL_domain : string -> string;
  URL_path : string -> string;
  URL_fragment : string -> string;
  (** [URL(domain, path) == URL(url)] *)
  URL_eq : string -> string -> string -> bool
}.

(** ** Locator *)

Record Locator := mkLocator {
  mode : string;
  value : string;
  index : Z;
  uses : Z
}.

(** [Locator()]: the empty placeholder. *)
Definition Locator_default : Locator := mkLocator "" "" 0 0.

(** [Locator(mode, value)] *)
Definition Locator_new (m v : string) : Locator := mkLocator m v 0 0.

Definition set_index (i : Z) (l : Locator) : Locator :=
  mkLocator (mode l) (value l) i (uses l).

Definition set_uses (u : Z) (l : Locator) : Locator :=
  mkLocator (mode l) (value l) (index l) u.

(** [Locator.__eq__] as generated by [@datafile(order=True)]: only [uses]
    is declared with [compare=True]. *)
Definition Locator_eqb (a b : Locator) : bool := uses a =? uses b.

(** [Locator.__bool__] *)
Definition Locator_bool (l : Locator) : bool :=
  str_bool (mode l) && str_bool (value l).

(** [Locator.score]: the returned flag and the locator afterwards. *)
Definition Locator_score (v : Z) (l : Locator) : bool * Locator :=
  let previous := uses l in
  let l' :=
    if 0 <? v then set_uses (Z.min 99 (Z.max 1 (uses l + v))) l
    else set_uses (Z.max (-1) (uses l + v)) l in
  if uses l' =? previous then (false, l') else (true, l').

(** ** Action, Locators and Page: the data *)

Record Action := mkAction {
  verb : string;
  name : string;
  locators : list Locator
}.

(** [Action()]: no verb, so [__post_init__] adds no default locator. *)
Definition Action_default : Action := mkAction "" "" [Locator_default].

Definition set_locators (ls : list Locator) (a : Action) : Action :=
  mkAction (verb a) (name a) ls.

(** [Action.__eq__] as generated by [@datafile]: the tuple of all fields. *)
Definition Action_eqb (a b : Action) : bool :=
  String.eqb (verb a) (verb b) && String.eqb (name a) (name b)
  && list_eqb Locator_eqb (locators a) (locators b).

Record Locators := mkLocators {
  inclusions : list Locator;
  exclusions : list Locator
}.

(** The field [Page.locators] is called [page_locators] here, since
    [Action] already has a field [locators]. *)
Record Page := mkPage {
  domain : string;
  path : string;
  variant : string;
  page_locators : Locators;
  actions : list Action
}.

Definition set_page_locators (ls : Locators) (p : Page) : Page :=
  mkPage (domain p) (path p) (variant p) ls (actions p).

Definition set_actions (acts : list Action) (p : Page) : Page :=
  mkPage (domain p) (path p) (variant p) (page_locators p) acts.

Definition set_inclusions (ls : list Locator) (p : Page) : Page :=
  set_page_locators (mkLocators ls (exclusions (page_locators p))) p.

Definition set_exclusions (ls : list Locator) (p : Page) : Page :=
  set_page_locators (mkLocators (inclusions (page_locators p)) ls) p.

(** ** Candidate lists *)

(** [Action.sorted_locators] *)
Definition sorted_locators (a : Action) : list Locator :=
  List.filter Locator_bool (sorted_reverse uses (locators a)).

(** [Locators.sorted_inclusions] *)
Definition sorted_inclusions (ls : Locators) : list Locator :=
  List.filter Locator_bool (sorted_reverse uses (inclusions ls)).

(** [Locators.sorted_exclusions] *)
Definition sorted_exclusions (ls : Locators) : list Locator :=
  List.filter Locator_bool (sorted_reverse uses (exclusions ls)).

(** The three properties return the very objects held by the owning list,
    and the loops below mutate them while iterating.  [sorted_refs] is
    the same comprehension computed on (position, locator) pairs; the
    positions are the references the loops iterate over. *)
Definition sorted_refs (ls : list Locator) : list nat :=
  map fst
    (List.filter (fun r => Locator_bool (snd r))
       (sorted_reverse (fun r => uses (snd r)) (enumerate ls))).

(** ** Garbage collection of locators *)

(** [Action.clean]: the count returned and the action afterwards. *)
Definition Action_clean (force : bool) (a : Action) : option (nat * Action) :=
  let unused_locators := List.filter (fun l => uses l <=? 0) (locators a) in
  let remove_unused_locators :=
    force || existsb (fun l => 99 <=? uses l) (locators a) in
  if negb remove_unused_locators then Some (0%nat, a)
  else
    ls ← remove_each Locator_eqb unused_locators (locators a);
    Some (length unused_locators, set_locators ls a).

(** [Locators.clean] *)
Definition Locators_clean (force : bool) (s : Locators) : option (nat * Locators) :=
  let unused_inclusion_locators :=
    List.filter (fun l => uses l <=? 0) (inclusions s) in
  let unused_exclusion_locators :=
    List.filter (fun l => uses l <=? 0) (exclusions s) in
  let remove_unused_locators :=
    force || existsb (fun l => 99 <=? uses l) (inclusions s)
          || existsb (fun l => 99 <=? uses l) (exclusions s) in
  if negb remove_unused_locators then Some (0%nat, s)
  else
    incl ← remove_each Locator_eqb unused_inclusion_locators (inclusions s);
    excl ← remove_each Locator_eqb unused_exclusion_locators (exclusions s);
    Some ((length unused_inclusion_locators
           + length unused_exclusion_locators)%nat,
          mkLocators incl excl).

(** The loop [for action in self.actions: count += action.clean(force=force)]. *)
Fixpoint clean_actions (force : bool) (acts : list Action)
  : option (nat * list Action) :=
  match acts with
  | [] => Some (0%nat, [])
  | a :: acts' =>
      '(n, a') ← Action_clean force a;
      '(m, rest) ← clean_actions force acts';
      Some ((n + m)%nat, a' :: rest)
  end.

(** [Page.clean]: the count returned, the page afterwards and the
    snapshots handed to [datafile.save()]. *)
Definition Page_clean (force : bool) (p : Page)
  : option (nat * Page * list Page) :=
  '(count0, ls) ← Locators_clean force (page_locators p);
  let unused_actions :=
    List.filter (fun a => forallb (fun l => uses l <=? 0) (locators a))
      (actions p) in
  let remove_unused_actions := force in
  acts1 ← (if negb (Nat.eqb (length unused_actions) 0) && remove_unused_actions
           then remove_each Action_eqb unused_actions (actions p)
           else Some (actions p));
  '(count1, acts2) ← clean_actions force acts1;
  let count := (count0 + count1)%nat in
  let p' := set_actions acts2 (set_page_locators ls p) in
  Some (count, p', if negb (Nat.eqb count 0) || force then [p'] else []).

(** [Page.exact] *)
Definition Page_exact (p : Page) : bool := negb (str_contains "{"%char (path p)).

Section WithDriver.
Context `{Driver}.

(** [Locator.find]: the element found, if any, and the locator afterwards. *)
Definition Locator_find (b : Browser) (l : Locator) : option Element * Locator :=
  let elements := finder b (mode l) (value l) in
  let index0 := index l in
  match getitem elements index0 with
  | None => (None, l)
  | Some element =>
      if (index0 =? 0) && negb (visible element) then
        let index1 := index0 + 1 in
        match getitem elements index1 with
        | None => (None, l)
        | Some element1 => (Some element1, set_index index1 l)
        end
      else (Some element, set_index index0 l)
  end.

(** ** Dispatch of an action *)

(** [Action._perform_action]: [function] is the bound method to call. *)
Definition Action_perform_action (a : Action)
    (function : Args -> Browser -> bool * Browser) (args : Args) (b : Browser)
  : bool * Browser :=
  let previous_url := browser_url b in
  let '(returned, b') := function args b in
  if returned then (true, post_action (verb a) previous_url args b')
  else (false, b').

(** The [for] loop of [Action._trying_locators] over the references
    produced by [sorted_locators]; [ls] is [self.locators].  The result
    is the value returned ([false]: an attempt succeeded), the browser
    and the locators afterwards.  An element handle is truthy, so
    [if element] asks whether [find] returned one; a reference always
    points into [ls], the [None] branch only makes the lookup total. *)
Fixpoint trying_refs (a : Action) (args : Args) (refs : list nat)
    (b : Browser) (ls : list Locator) : bool * Browser * list Locator :=
  match refs with
  | [] => (true, b, ls)
  | r :: refs' =>
      match ls !! r with
      | None => trying_refs a args refs' b ls
      | Some locator =>
          if Locator_bool locator then
            let '(element, locator1) := Locator_find b locator in
            match element with
            | Some e =>
                let function := fun args' => call_verb (verb a) args' e in
                let '(done, b1) := Action_perform_action a function args b in
                if done then
                  (false, b1, <[r := snd (Locator_score 1 locator1)]> ls)
                else
                  trying_refs a args refs' b1
                    (<[r := snd (Locator_score (-1) locator1)]> ls)
            | None =>
                trying_refs a args refs' b
                  (<[r := snd (Locator_score (-1) locator1)]> ls)
            end
          else
            trying_refs a args refs' b
              (<[r := snd (Locator_score (-1) locator)]> ls)
      end
  end.

(** [Action._trying_locators] *)
Definition Action_trying_locators (args : Args) (b : Browser) (a : Action)
  : bool * Browser * Action :=
  if String.eqb (verb a) Verb_TYPE then
    let '(_, b') := Action_perform_action a (send_keys (name a)) args b in
    (false, b', a)
  else
    let '(failed, b', ls) :=
      trying_refs a args (sorted_refs (locators a)) b (locators a) in
    (failed, b', set_locators ls a).

(** The [while] loop of [Action._call_method].  [prompts.mode_and_value()]
    reads the operator's next answer from [answers]; an operator who
    never answers blocks the call for ever, which is [None] here.  The
    result carries the value of the last [_trying_locators] call
    ([true]: the loop was left by [break]). *)
Fixpoint repair_loop (answers : list (string * string)) (args : Args)
    (b : Browser) (a : Action)
  : option (bool * Browser * Action * list (string * string)) :=
  let '(failed, b', a') := Action_trying_locators args b a in
  if failed then
    match answers with
    | [] => None
    | (m, v) :: answers' =>
        if str_bool m then
          repair_loop answers' args b'
            (set_locators (locators a' ++ [Locator_new m v]) a')
        else Some (true, b', a', answers')
    end
  else Some (false, b', a', answers).

(** ** Page identification *)

(** The first loop of [Page.active], over the references produced by
    [sorted_inclusions]; [saved] collects the snapshots handed to
    [datafile.save()]. *)
Fixpoint check_inclusions (b : Browser) (refs : list nat) (p : Page)
    (saved : list Page) : bool * Page * list Page :=
  match refs with
  | [] => (true, p, saved)
  | r :: refs' =>
      match inclusions (page_locators p) !! r with
      | None => check_inclusions b refs' p saved
      | Some locator =>
          let '(element, locator1) := Locator_find b locator in
          match element with
          | Some _ =>
              let '(moved, locator2) := Locator_score 1 locator1 in
              let p' :=
                set_inclusions (<[r := locator2]> (inclusions (page_locators p))) p in
              check_inclusions b refs' p' (if moved then saved ++ [p'] else saved)
          | None =>
              (false,
               set_inclusions (<[r := locator1]> (inclusions (page_locators p))) p,
               saved)
          end
      end
  end.

(** The second loop of [Page.active], over [sorted_exclusions]; the flag
    is [true] when an excluded element was found. *)
Fixpoint check_exclusions (b : Browser) (refs : list nat) (p : Page)
    (saved : list Page) : bool * Page * list Page :=
  match refs with
  | [] => (false, p, saved)
  | r :: refs' =>
      match exclusions (page_locators p) !! r with
      | None => check_exclusions b refs' p saved
      | Some locator =>
          let '(element, locator1) := Locator_find b locator in
          match element with
          | Some _ =>
              let '(moved, locator2) := Locator_score 1 locator1 in
              let p' :=
                set_exclusions (<[r := locator2]> (exclusions (page_locators p))) p in
              (true, p', if moved then saved ++ [p'] else saved)
          | None =>
              check_exclusions b refs'
                (set_exclusions (<[r := locator1]> (exclusions (page_locators p))) p)
                saved
          end
      end
  end.

(** [Page.active]: the answer, the page afterwards and the snapshots
    saved. *)
Definition Page_active (b : Browser) (p : Page) : bool * Page * list Page :=
  if negb (URL_eq (domain p) (path p) (browser_url b)) then (false, p, [])
  else
    let '(all_found, p1, saved1) :=
      check_inclusions b (sorted_refs (inclusions (page_locators p))) p [] in
    if all_found then
      let '(found, p2, saved2) :=
        check_exclusions b (sorted_refs (exclusions (page_locators p1))) p1 saved1 in
      (negb found, p2, saved2)
    else (false, p1, saved1).

(** [Page.at]: a fresh page object for [url], visiting it first when the
    browser is elsewhere. *)
Definition Page_at (url variant_arg : string) (b : Browser) : Page * Browser :=
  let b' := if negb (String.eqb (browser_url b) url) then browser_visit url b else b in
  let variant' := if str_bool variant_arg then variant_arg else URL_fragment url in
  (mkPage (URL_domain url) (URL_path url)
     (if str_bool variant' then variant' else "default")
     (mkLocators [] []) [Action_default],
   b').

(** ** Registry disambiguation *)

(** [Page.objects.filter(domain=URL(shared.browser.url).domain)], where
    [objects] is the content of the registry. *)
Definition domain_pages (b : Browser) (objects : list Page) : list Page :=
  List.filter (fun p => String.eqb (domain p) (URL_domain (browser_url b)))
    objects.

(** The loop of [auto]: every page of the domain is asked whether it is
    active, which may rescore its locators. *)
Definition auto_scan (b : Browser) (objects : list Page)
  : list (bool * Page * list Page) :=
  map (Page_active b) (domain_pages b objects).

(** [matching_pages] when the loop is over. *)
Definition active_pages (b : Browser) (objects : list Page) : list Page :=
  map (fun r => snd (fst r)) (List.filter (fun r => fst (fst r)) (auto_scan b objects)).

(** [matching_pages] when the result is chosen: abstract pages are
    dropped as soon as the domain has one exact page. *)
Definition auto_matching (b : Browser) (objects : list Page) : list Page :=
  let found_exact_match :=
    existsb (fun r => Page_exact (snd (fst r))) (auto_scan b objects) in
  if found_exact_match then List.filter Page_exact (active_pages b objects)
  else active_pages b objects.

(** The snapshots saved while [auto] scans the registry. *)
Definition auto_saved (b : Browser) (objects : list Page) : list Page :=
  concat (map snd (auto_scan b objects)).

(** [auto]: the page returned, the browser and the snapshots saved. *)
Definition auto (b : Browser) (objects : list Page) : Page * Browser * list Page :=
  match auto_matching b objects with
  | page :: _ => (page, b, auto_saved b objects)
  | [] =>
      let '(page, b') := Page_at (browser_url b) "" b in
      (page, b', auto_saved b objects ++ [page])
  end.

(** [Action._call_method].  The [page] argument is only tested and handed
    back, so it is kept abstract: the result is either that very page
    ([inl]) or the page found by [auto] ([inr]). *)
Definition Action_call_method {P : Type} (page : option P)
    (answers : list (string * string)) (args : Args) (objects : list Page)
    (b : Browser) (a : Action)
  : option ((P + Page) * Browser * Action * list Page) :=
  '(_, b1, a1, _) ← repair_loop answers args b a;
  match page with
  | Some pg =>
      if Verb_updates (verb a1) then Some (inl pg, b1, a1, [])
      else let '(found, b2, saved) := auto b1 objects in
           Some (inr found, b2, a1, saved)
  | None =>
      let '(found, b2, saved) := auto b1 objects in
      Some (inr found, b2, a1, saved)
  end.

(** A locator after a successful [find] followed by [score(+1)]. *)
Definition rescore_found (b : Browser) (l : Locator) : Locator :=
  snd (Locator_score 1 (snd (Locator_find b l))).

End WithDriver.

(** ** Vocabulary of the statements *)

(** A locator that [clean] may remove, one that licenses removal, and an
    action without a useful locator. *)
Definition unused (l : Locator) : bool := uses l <=? 0.
Definition confirmed (l : Locator) : bool := 99 <=? uses l.
Definition unused_action (a : Action) : bool := forallb unused (locators a).

(** [removed_from before after gone]: [after] is [before] without the
    locators [gone], all of which had non-positive [uses], and every
    locator with positive [uses] is still there, in the same order. *)
Definition removed_from (before after gone : list Locator) : Prop :=
  Permutation before (after ++ gone) /\
  Forall (fun l => uses l <= 0) gone /\
  List.filter (fun l => 0 <? uses l) after
  = List.filter (fun l => 0 <? uses l) before /\
  (forall l, In l before -> 0 < uses l -> In l after).

(** [descending key x y]: [x] may stand before [y] in a list sorted into
    descending order of [key]. *)
Definition descending {A : Type} (key : A -> Z) (x y : A) : Prop :=
  key y <= key x.

(** [relabel m v i] rewrites [mode], [value] and [index] and keeps [uses]. *)
Definition relabel (m v : Locator -> string) (i : Locator -> Z) (l : Locator)
  : Locator :=
  mkLocator (m l) (v l) (i l) (uses l).

(** [candidates_of owned chosen]: [chosen] holds exactly the members of
    [owned] whose [mode] and [value] are both non-empty, each as often as
    [owned] does, in descending order of [uses]. *)
Definition candidates_of (owned chosen : list Locator) : Prop :=
  Permutation chosen (List.filter Locator_bool owned) /\
  StronglySorted (fun x y => uses y <= uses x) chosen /\
  (forall l, In l chosen <-> In l owned /\ mode l <> "" /\ value l <> "").

(** The (position, locator) pairs behind [sorted_refs]. *)
Definition sorted_pairs (ls : list Locator) : list (nat * Locator) :=
  List.filter (fun r => Locator_bool (snd r))
    (sorted_reverse (fun r => uses (snd r)) (enumerate ls)).

(** The store after every locator referenced by [refs] has been updated
    by [f]. *)
Definition updated_at {A : Type} (f : A -> A) (refs : list nat) (ls : list A)
  : list A :=
  fold_left (fun acc r => alter f r acc) refs ls.

(** The (mode, value) pairs of a list of locators, in order. *)
Definition labels (ls : list Locator) : list (string * string) :=
  map (fun l => (mode l, value l)) ls.

(** ** A scripted browser for worked examples

    The document is a table from selector values to the elements they
    match; an interaction succeeds on a visible element and never
    navigates. *)
Definition demo_finder (doc : list (string * list Element)) (m v : string)
  : list Element :=
  match List.find (fun e => String.eqb (fst e) v) doc with
  | Some e => snd e
  | None => []
  end.

Definition demo_driver : Driver := {|
  Browser := list (string * list Element);
  Args := unit;
  browser_url := fun _ => "example.com/login";
  browser_visit := fun _ b => b;
  finder := demo_finder;
  call_verb := fun _ _ e b => (visible e, b);
  send_keys := fun _ _ b => (true, b);
  post_action := fun _ _ _ b => b;
  Verb_TYPE := "type";
  Verb_updates := fun v => String.eqb v "fill" || String.eqb v "select";
  URL_domain := fun _ => "example.com";
  URL_path := fun _ => "login";
  URL_fragment := fun _ => "";
  URL_eq := fun d p _ =>
    String.eqb d "example.com"
    && (String.eqb p "login" || negb (Page_exact (mkPage d p "" (mkLocators [] []) [])))
|}.

Definition shown : Element := mkElement true "<button>".
Definition hidden : Element := mkElement false "<label>".

(** A locator set with a confirmed inclusion and a stale exclusion. *)
Definition demo_set : Locators :=
  mkLocators [mkLocator "id" "main" 0 99] [mkLocator "id" "error" 0 0].

(** A page with a confirmed inclusion, an action whose only locator is
    stale, and an action with a confirmed and a stale locator. *)
Definition stale_action : Action :=
  mkAction "click" "promo" [mkLocator "id" "promo" 0 0].

Definition demo_gc_page : Page :=
  mkPage "example.com" "login" "default"
    (mkLocators [mkLocator "id" "main" 0 99] [])
    [stale_action;
     mkAction "click" "submit"
       [mkLocator "id" "submit" 0 99; mkLocator "css" "button" 0 0]].

(** A document, and a login page recognised by three inclusion locators,
    the second of which matches nothing in the document, and by one
    exclusion locator. *)
Definition demo_doc : list (string * list Element) :=
  [("main", [shown]); ("footer", [hidden; shown]); ("error", [shown]);
   ("email", [shown])].

Definition demo_login_page : Page :=
  mkPage "example.com" "login" "default"
    (mkLocators
       [mkLocator "id" "main" 0 5; mkLocator "id" "banner" 0 3;
        mkLocator "id" "footer" 0 1]
       [mkLocator "id" "error" 0 0])
    [].

Definition demo_exact_page : Page :=
  mkPage "example.com" "login" "default" (mkLocators [] []) [].

Definition demo_abstract_page : Page :=
  mkPage "example.com" "{page}" "default" (mkLocators [] []) [].

Definition demo_fill : Action :=
  mkAction "fill" "email" [mkLocator "id" "email" 0 (-1)].

(** The page handed back by a dispatch, if the dispatch returns. *)
Definition returned_page {P B : Type}
    (r : option ((P + Page) * B * Action * list Page)) : option (P + Page) :=
  (fun x => fst (fst (fst x))) <$> r.

(** ** Further parts of the model *)


(** [Action.__str__] *)
Definition Action_str (a : Action) : string :=
  String.append (verb a) (String "_"%char (name a)).

(** [Action.__bool__] *)
Definition Action_bool (a : Action) : bool :=
  str_bool (verb a) && str_bool (name a).

(** What [models.py] asks of the verb vocabulary in [enums.py]. *)
Class Vocabulary := {
  (** [Verb.validate(verb, name)] *)
  Verb_validate : string -> string -> bool;
  (** [Verb(verb).get_default_locators(name)] *)
  Verb_get_default_locators : string -> string -> list (string * string)
}.

Section WithVocabulary.
Context `{Vocabulary}.

(** [Action.__post_init__] *)
Definition Action_post_init (a : Action) : Action :=
  if str_bool (verb a) && (length (locators a) <=? 1)%nat then
    set_locators
      (locators a
       ++ map (fun mv => Locator_new (fst mv) (snd mv))
            (Verb_get_default_locators (verb a) (name a)))
      a
  else a.




End WithVocabulary.

(** [Page.__dir__]: the names returned and the page afterwards. *)
Definition Page_dir (p : Page) : list string * Page :=
  (map Action_str (List.filter Action_bool (actions p)),
   if forallb Action_bool (actions p)
   then set_actions (actions p ++ [Action_default]) p
   else p).

(** ** Further vocabulary *)

(** [n] calls of [score(v)] in a row. *)
Definition score_times (v : Z) (n : nat) (l : Locator) : Locator :=
  Nat.iter n (fun x => snd (Locator_score v x)) l.

(** A locator after a dispatch in which it was tried in vain, if it is
    usable at all. *)
Definition penalised (l : Locator) : Locator :=
  if Locator_bool l then snd (Locator_score (-1) l) else l.

(** The scores held by a page's own locators. *)
Definition page_scores (p : Page) : list Z * list Z :=
  (map uses (inclusions (page_locators p)),
   map uses (exclusions (page_locators p))).

(** The number of locators a page holds, in its locator set and in its
    actions. *)
Definition total_locators (p : Page) : nat :=
  (length (inclusions (page_locators p))
   + length (exclusions (page_locators p))
   + list_sum (map (fun a => length (locators a)) (actions p)))%nat.

(** What [Action.clean] returns and leaves, in closed form. *)
Definition Action_cleaned (force : bool) (a : Action) : nat * Action :=
  if force || existsb confirmed (locators a)
  then (length (List.filter unused (locators a)),
        set_locators (List.filter (fun l => negb (unused l)) (locators a)) a)
  else (0%nat, a).

Section WithDriverVocabulary.
Context `{Driver}.

(** Whether [find] returns an element. *)
Definition found (b : Browser) (l : Locator) : bool :=
  match fst (Locator_find b l) with
  | Some _ => true
  | None => false
  end.

(** Whether the locator at a position resolves; a position outside the
    list counts as [otherwise]. *)
Definition resolves (otherwise : bool) (b : Browser) (ls : list Locator)
    (r : nat) : bool :=
  match ls !! r with
  | Some l => found b l
  | None => otherwise
  end.


End WithDriverVocabulary.

(** One locator before and after a pass: same selector, and a score that
    is unchanged or went through one [score(-1)] or one [score(+1)]. *)
Definition scored_once (l l' : Locator) : Prop :=
  mode l' = mode l /\ value l' = value l /\
  (uses l' = uses l \/
   uses l' = Z.max (-1) (uses l - 1) \/
   uses l' = Z.min 99 (Z.max 1 (uses l + 1))).

(** A vocabulary with [click] and [fill], and two default locators for
    every click target. *)
Definition demo_vocabulary : Vocabulary := {|
  Verb_validate := fun v n =>
    (String.eqb v "click" || String.eqb v "fill") && str_bool n;
  Verb_get_default_locators := fun v n =>
    if String.eqb v "click" then [("text", n); ("value", n)] else []
|}.

(** * Properties *)

(** ** Locator scoring *)

Lemma Locator_score_uses (delta : Z) (l : Locator) :
  uses (snd (Locator_score delta l))
  = (if 0 <? delta then Z.min 99 (Z.max 1 (uses l + delta))
     else Z.max (-1) (uses l + delta)).
Proof.
  unfold Locator_score. cbn zeta.
  destruct (0 <? delta); cbn [uses set_uses];
    match goal with |- context [if ?c then _ else _] => destruct c end; done.
Qed.

Lemma Locator_score_frame (delta : Z) (l : Locator) :
  mode (snd (Locator_score delta l)) = mode l /\
  value (snd (Locator_score delta l)) = value l /\
  index (snd (Locator_score delta l)) = index l.
Proof.
  unfold Locator_score. cbn zeta.
  destruct (0 <? delta); cbn [uses set_uses];
    match goal with |- context [if ?c then _ else _] => destruct c end; done.
Qed.

(** C1: [score(delta)] sets [uses] to [min(99, max(1, uses + delta))] when
    [delta > 0], hence to a value between 1 and 99, and to
    [max(-1, uses + delta)] when [delta <= 0], hence to a value that is at
    least -1 and is [uses + delta] itself whenever that is at least -1 (no
    ceiling); it returns [false] exactly when the new value equals the
    previous one; the other fields are untouched. *)
Theorem score_clamps (l : Locator) (delta : Z) :
  let changed := fst (Locator_score delta l) in
  let l' := snd (Locator_score delta l) in
  (0 < delta ->
     uses l' = Z.min 99 (Z.max 1 (uses l + delta)) /\ 1 <= uses l' <= 99) /\
  (delta <= 0 ->
     uses l' = Z.max (-1) (uses l + delta) /\ -1 <= uses l' /\
     (-1 <= uses l + delta -> uses l' = uses l + delta)) /\
  (changed = false <-> uses l' = uses l) /\
  (changed = true <-> uses l' <> uses l) /\
  mode l' = mode l /\ value l' = value l /\ index l' = index l.
Proof.
  unfold Locator_score. cbn zeta.
  destruct (0 <? delta) eqn:Hd; cbn [uses set_uses];
    [apply Z.ltb_lt in Hd | apply Z.ltb_ge in Hd].
  - destruct (Z.min 99 (Z.max 1 (uses l + delta)) =? uses l) eqn:He;
      [apply Z.eqb_eq in He | apply Z.eqb_neq in He];
      cbn [fst snd uses set_uses mode value index];
      repeat split; intros; try lia; try congruence.
  - destruct (Z.max (-1) (uses l + delta) =? uses l) eqn:He;
      [apply Z.eqb_eq in He | apply Z.eqb_neq in He];
      cbn [fst snd uses set_uses mode value index];
      repeat split; intros; try lia; try congruence.
Qed.

Lemma score_clamps_witness :
  uses (snd (Locator_score 5 (mkLocator "id" "go" 0 97))) = 99 /\
  uses (snd (Locator_score (-5) (mkLocator "id" "go" 0 2))) = -1 /\
  uses (snd (Locator_score 0 (mkLocator "id" "go" 0 150))) = 150.
Proof.
  split; [| split].
  - destruct (score_clamps (mkLocator "id" "go" 0 97) 5) as [Hpos _].
    destruct Hpos as [-> _]; [lia | reflexivity].
  - destruct (score_clamps (mkLocator "id" "go" 0 2) (-5)) as [_ [Hneg _]].
    destruct Hneg as [-> _]; [lia | reflexivity].
  - destruct (score_clamps (mkLocator "id" "go" 0 150) 0) as [_ [Hneg _]].
    destruct Hneg as [_ [_ Hfree]]; [lia |].
    rewrite Hfree; [reflexivity | cbn; lia].
Defined.

Section LocatorFacts.
Context `{Driver}.

Lemma find_unfound (b : Browser) (l : Locator) :
  fst (Locator_find b l) = None -> snd (Locator_find b l) = l.
Proof.
  unfold Locator_find. cbn zeta.
  destruct (getitem (finder b (mode l) (value l)) (index l)) as [e|]; [|done].
  destruct ((index l =? 0) && negb (visible e)); [|discriminate].
  destruct (getitem (finder b (mode l) (value l)) (index l + 1)); [discriminate|done].
Qed.

Lemma find_frame (b : Browser) (l : Locator) :
  mode (snd (Locator_find b l)) = mode l /\
  value (snd (Locator_find b l)) = value l /\
  uses (snd (Locator_find b l)) = uses l.
Proof.
  unfold Locator_find. cbn zeta.
  destruct (getitem (finder b (mode l) (value l)) (index l)) as [e|]; [|done].
  destruct ((index l =? 0) && negb (visible e)); [|done].
  destruct (getitem (finder b (mode l) (value l)) (index l + 1)); done.
Qed.

(** C10: a [find] that returns no element leaves the locator as it was,
    in particular its [index]; this covers the case of an invisible first
    match with nothing at index 1; hence the [index] can only differ
    after a [find] that returned an element, and [find] never touches
    [mode], [value] or [uses]. *)
Theorem find_failure_keeps_index (b : Browser) (l : Locator) :
  (fst (Locator_find b l) = None -> snd (Locator_find b l) = l) /\
  (forall e, index l = 0 ->
     getitem (finder b (mode l) (value l)) 0 = Some e ->
     visible e = false ->
     getitem (finder b (mode l) (value l)) 1 = None ->
     Locator_find b l = (None, l)) /\
  (getitem (finder b (mode l) (value l)) (index l) = None ->
     Locator_find b l = (None, l)) /\
  (index (snd (Locator_find b l)) <> index l ->
     exists e, fst (Locator_find b l) = Some e) /\
  mode (snd (Locator_find b l)) = mode l /\
  value (snd (Locator_find b l)) = value l /\
  uses (snd (Locator_find b l)) = uses l.
Proof.
  split; [apply find_unfound|].
  split.
  { intros e Hi H0 Hv H1. unfold Locator_find. cbn zeta.
    rewrite Hi, H0, Hv. change (0 + 1) with 1. by rewrite H1. }
  split.
  { intros Hn. unfold Locator_find. cbn zeta. by rewrite Hn. }
  split; [|apply find_frame].
  intros Hne. destruct (fst (Locator_find b l)) as [e|] eqn:Hf; [by exists e|].
  apply find_unfound in Hf. by rewrite Hf in Hne.
Qed.

End LocatorFacts.

Lemma find_failure_keeps_index_witness :
  Locator_find (H := demo_driver) [("go", [hidden])] (mkLocator "id" "go" 0 3)
  = (None, mkLocator "id" "go" 0 3).
Proof.
  apply (find_failure_keeps_index (H := demo_driver)
           [("go", [hidden])] (mkLocator "id" "go" 0 3))
    with (e := hidden); reflexivity.
Defined.

(** ** Removing the members of a class from a list *)

Section RemoveEach.
Context {A : Type} (eqb : A -> A -> bool) (P : A -> bool).
Hypothesis eqb_refl : forall x, eqb x x = true.
Hypothesis P_compat : forall x y, eqb x y = true -> P x = P y.

Lemma remove_each_skip (xs : list A) (y : A) (l : list A) :
  Forall (fun x => eqb y x = false) xs ->
  remove_each eqb xs (y :: l) = cons y <$> remove_each eqb xs l.
Proof.
  revert l. induction xs as [|x xs IH]; intros l Hxs; [done|].
  inversion Hxs as [|? ? Hx Hrest]; subst. cbn [remove_each list_remove].
  rewrite Hx. destruct (list_remove eqb x l) as [l'|]; [|done].
  by apply IH.
Qed.

(** Calling [remove] once for every member of [l] that satisfies [P]
    never raises and leaves exactly the members that do not. *)
Lemma remove_each_filter (l : list A) :
  remove_each eqb (List.filter P l) l
  = Some (List.filter (fun x => negb (P x)) l).
Proof.
  induction l as [|y l IH]; [done|].
  cbn [List.filter]. destruct (P y) eqn:Hy; cbn [negb].
  - cbn [remove_each list_remove]. by rewrite eqb_refl.
  - rewrite remove_each_skip, IH; [done|].
    apply Forall_forall. intros x Hx%list_elem_of_In.
    apply filter_In in Hx as [_ Hx].
    destruct (eqb y x) eqn:He; [|done].
    apply P_compat in He. congruence.
Qed.

End RemoveEach.

Lemma filter_split_Permutation {A : Type} (f : A -> bool) (l : list A) :
  Permutation l (List.filter (fun x => negb (f x)) l ++ List.filter f l).
Proof.
  induction l as [|x l IH]; [done|].
  cbn [List.filter]. destruct (f x); cbn [negb].
  - by apply Permutation_cons_app.
  - cbn. by constructor.
Qed.

Lemma filter_filter_negb {A : Type} (f g : A -> bool) (l : list A) :
  (forall x, g x = true -> f x = false) ->
  List.filter g (List.filter (fun x => negb (f x)) l) = List.filter g l.
Proof.
  intros Hfg. induction l as [|x l IH]; [done|].
  cbn [List.filter]. destruct (f x) eqn:Hf; cbn [negb List.filter].
  - destruct (g x) eqn:Hg; [|done]. apply Hfg in Hg. congruence.
  - by rewrite IH.
Qed.

(** ** Garbage collection *)

Lemma Locator_eqb_refl (l : Locator) : Locator_eqb l l = true.
Proof. apply Z.eqb_refl. Qed.

Lemma Locator_eqb_unused (x y : Locator) :
  Locator_eqb x y = true -> unused x = unused y.
Proof. unfold Locator_eqb, unused. intros Hxy%Z.eqb_eq. by rewrite Hxy. Qed.

Lemma remove_unused_locators (ls : list Locator) :
  remove_each Locator_eqb (List.filter unused ls) ls
  = Some (List.filter (fun l => negb (unused l)) ls).
Proof.
  apply remove_each_filter; [apply Locator_eqb_refl | apply Locator_eqb_unused].
Qed.

Lemma list_eqb_refl {A : Type} (eqb : A -> A -> bool) (l : list A) :
  (forall x, eqb x x = true) -> list_eqb eqb l l = true.
Proof. intros Hr. induction l as [|x l IH]; [done|]. cbn. by rewrite Hr, IH. Qed.

Lemma Action_eqb_refl (a : Action) : Action_eqb a a = true.
Proof.
  unfold Action_eqb. rewrite !String.eqb_refl, list_eqb_refl; [done|].
  apply Locator_eqb_refl.
Qed.

Lemma list_eqb_unused (l1 l2 : list Locator) :
  list_eqb Locator_eqb l1 l2 = true -> forallb unused l1 = forallb unused l2.
Proof.
  revert l2. induction l1 as [|x l1 IH]; intros [|y l2] Heq; try done.
  cbn in Heq. apply andb_prop in Heq as [Hxy Heq]. cbn.
  by rewrite (Locator_eqb_unused x y Hxy), (IH l2 Heq).
Qed.

Lemma Action_eqb_unused (x y : Action) :
  Action_eqb x y = true -> unused_action x = unused_action y.
Proof.
  unfold Action_eqb, unused_action. intros Heq.
  apply andb_prop in Heq as [_ Heq]. by apply list_eqb_unused.
Qed.

Lemma remove_unused_actions (acts : list Action) :
  remove_each Action_eqb (List.filter unused_action acts) acts
  = Some (List.filter (fun a => negb (unused_action a)) acts).
Proof.
  apply remove_each_filter; [apply Action_eqb_refl | apply Action_eqb_unused].
Qed.

(** What [Action.clean] computes: it never raises, and either leaves the
    action alone or keeps exactly the locators with positive [uses]. *)
Lemma Action_clean_eq (force : bool) (a : Action) :
  Action_clean force a =
  Some (if force || existsb confirmed (locators a)
        then (length (List.filter unused (locators a)),
              set_locators (List.filter (fun l => negb (unused l)) (locators a)) a)
        else (0%nat, a)).
Proof.
  unfold Action_clean. cbn zeta. fold unused. fold confirmed.
  destruct (force || existsb confirmed (locators a)); [|done].
  cbn [negb]. by rewrite remove_unused_locators.
Qed.

Lemma Locators_clean_eq (force : bool) (s : Locators) :
  Locators_clean force s =
  Some (if force || existsb confirmed (inclusions s)
                 || existsb confirmed (exclusions s)
        then ((length (List.filter unused (inclusions s))
               + length (List.filter unused (exclusions s)))%nat,
              mkLocators
                (List.filter (fun l => negb (unused l)) (inclusions s))
                (List.filter (fun l => negb (unused l)) (exclusions s)))
        else (0%nat, s)).
Proof.
  unfold Locators_clean. cbn zeta. fold unused. fold confirmed.
  destruct (force || existsb confirmed (inclusions s)
                  || existsb confirmed (exclusions s)); [|done].
  cbn [negb]. by rewrite !remove_unused_locators.
Qed.

Lemma removed_from_refl (ls : list Locator) : removed_from ls ls [].
Proof.
  unfold removed_from. rewrite app_nil_r. repeat split; auto.
Qed.

Lemma removed_from_filter (ls : list Locator) :
  removed_from ls (List.filter (fun l => negb (unused l)) ls)
    (List.filter unused ls).
Proof.
  unfold removed_from. split; [apply filter_split_Permutation|].
  split.
  { apply Forall_forall. intros l Hl%list_elem_of_In.
    apply filter_In in Hl as [_ Hl]. unfold unused in Hl. lia. }
  split.
  { apply filter_filter_negb. intros l Hl. unfold unused. lia. }
  intros l Hin Hpos. apply filter_In. split; [done|]. unfold unused.
  apply negb_true_iff, Z.leb_gt. lia.
Qed.

(** C9: every call of [Action.clean] and of [Locators.clean], forced or
    not, returns, and what it removed from a collection are locators with
    [uses <= 0]: a locator with positive [uses] is still in its
    collection afterwards. *)
Theorem clean_keeps_positive (force : bool) :
  (forall a : Action, exists n a' gone,
     Action_clean force a = Some (n, a') /\
     removed_from (locators a) (locators a') gone) /\
  (forall s : Locators, exists n s' gone_incl gone_excl,
     Locators_clean force s = Some (n, s') /\
     removed_from (inclusions s) (inclusions s') gone_incl /\
     removed_from (exclusions s) (exclusions s') gone_excl).
Proof.
  split.
  - intros a. rewrite Action_clean_eq.
    destruct (force || existsb confirmed (locators a)).
    + eexists _, _, _. split; [reflexivity|]. apply removed_from_filter.
    + eexists _, _, _. split; [reflexivity|]. apply removed_from_refl.
  - intros s. rewrite Locators_clean_eq.
    destruct (force || existsb confirmed (inclusions s)
                    || existsb confirmed (exclusions s)).
    + eexists _, _, _, _. split; [reflexivity|].
      split; apply removed_from_filter.
    + eexists _, _, _, _. split; [reflexivity|].
      split; apply removed_from_refl.
Qed.

Lemma existsb_confirmed_false (ls : list Locator) :
  Forall (fun l => uses l < 99) ls -> existsb confirmed ls = false.
Proof.
  induction 1 as [|l ls Hl _ IH]; [done|]. cbn. rewrite IH.
  unfold confirmed. apply orb_false_iff. split; [|done]. apply Z.leb_gt. lia.
Qed.

Lemma existsb_confirmed_true (ls : list Locator) :
  Exists (fun l => 99 <= uses l) ls -> existsb confirmed ls = true.
Proof.
  induction 1 as [l ls Hl|l ls _ IH]; cbn.
  - unfold confirmed. apply orb_true_iff. left. by apply Z.leb_le.
  - rewrite IH. apply orb_true_r.
Qed.

Lemma length_filter_split {A : Type} (f : A -> bool) (l : list A) :
  length l
  = (length (List.filter (fun x => negb (f x)) l) + length (List.filter f l))%nat.
Proof.
  rewrite <- length_app. apply Permutation_length, filter_split_Permutation.
Qed.

(** C3, as the code has it: [Action.clean(force=False)] removes nothing
    unless a locator of that action has [uses >= 99];
    [Locators.clean(force=False)] removes nothing unless a locator on
    either side has [uses >= 99]: the two sides share one trigger, and
    with such a locator on either side the unforced clean does what the
    forced one does; with [force=True] both keep exactly the locators
    with [uses > 0]; the number returned is the number of locators
    removed. *)
Theorem clean_trigger :
  (forall a : Action,
     (Forall (fun l => uses l < 99) (locators a) ->
      Action_clean false a = Some (0%nat, a)) /\
     (Exists (fun l => 99 <= uses l) (locators a) ->
      Action_clean false a = Action_clean true a) /\
     Action_clean true a
     = Some (length (List.filter (fun l => uses l <=? 0) (locators a)),
             set_locators (List.filter (fun l => 0 <? uses l) (locators a)) a) /\
     (forall force n a', Action_clean force a = Some (n, a') ->
        length (locators a) = (length (locators a') + n)%nat)) /\
  (forall s : Locators,
     (Forall (fun l => uses l < 99) (inclusions s) ->
      Forall (fun l => uses l < 99) (exclusions s) ->
      Locators_clean false s = Some (0%nat, s)) /\
     (Exists (fun l => 99 <= uses l) (inclusions s ++ exclusions s) ->
      Locators_clean false s = Locators_clean true s) /\
     Locators_clean true s
     = Some ((length (List.filter (fun l => (uses l <=? 0)%Z) (inclusions s))
              + length (List.filter (fun l => (uses l <=? 0)%Z) (exclusions s)))%nat,
             mkLocators (List.filter (fun l => 0 <? uses l) (inclusions s))
                        (List.filter (fun l => 0 <? uses l) (exclusions s))) /\
     (forall force n s', Locators_clean force s = Some (n, s') ->
        (length (inclusions s) + length (exclusions s))%nat
        = (length (inclusions s') + length (exclusions s') + n)%nat)).
Proof.
  assert (Hpos : forall ls : list Locator,
             List.filter (fun l => negb (unused l)) ls
             = List.filter (fun l => 0 <? uses l) ls).
  { intros ls. apply filter_ext. intros l. unfold unused.
    destruct (Z.leb_spec (uses l) 0), (Z.ltb_spec 0 (uses l)); done || lia. }
  split.
  - intros a. split; [|split; [|split]].
    + intros Hlow. rewrite Action_clean_eq, existsb_confirmed_false; done.
    + intros Hhigh. rewrite !Action_clean_eq, existsb_confirmed_true; done.
    + rewrite Action_clean_eq. cbn [orb]. by rewrite Hpos.
    + intros force n a'. rewrite Action_clean_eq.
      destruct (force || existsb confirmed (locators a));
        intros [= <- <-]; cbn [locators set_locators]; [|lia].
      apply length_filter_split.
  - intros s. split; [|split; [|split]].
    + intros Hi He.
      rewrite Locators_clean_eq, !existsb_confirmed_false; done.
    + intros [Hhigh|Hhigh]%Exists_app; rewrite !Locators_clean_eq;
        rewrite (existsb_confirmed_true _ Hhigh); cbn [orb];
        by rewrite ?orb_true_r.
    + rewrite Locators_clean_eq. cbn [orb]. by rewrite !Hpos.
    + intros force n s'. rewrite Locators_clean_eq.
      destruct (force || existsb confirmed (inclusions s)
                      || existsb confirmed (exclusions s));
        intros [= <- <-]; cbn [inclusions exclusions]; [|lia].
      rewrite (length_filter_split unused (inclusions s)) at 1.
      rewrite (length_filter_split unused (exclusions s)) at 1. lia.
Qed.

Lemma clean_actions_Forall2 (force : bool) (acts : list Action) :
  exists n acts',
    clean_actions force acts = Some (n, acts') /\
    Forall2 (fun a a' => exists k, Action_clean force a = Some (k, a'))
      acts acts'.
Proof.
  induction acts as [|a acts (m & rest & Hrest & HF)].
  - exists 0%nat, []. split; [done|constructor].
  - cbn [clean_actions]. rewrite Hrest.
    destruct (Action_clean force a) as [[k a']|] eqn:Ha.
    + exists (k + m)%nat, (a' :: rest). split; [done|].
      constructor; [by exists k|done].
    + by rewrite Action_clean_eq in Ha.
Qed.

Lemma filter_none_negb {A : Type} (f : A -> bool) (l : list A) :
  List.filter f l = [] -> List.filter (fun x => negb (f x)) l = l.
Proof.
  induction l as [|x l IH]; [done|]. cbn [List.filter].
  destruct (f x); [done|]. intros Hl. cbn. by rewrite IH.
Qed.

(** C2, as the code has it: [Page.clean] cleans the page's own locator
    collections, then decides which actions go, and only then cleans the
    locators of the actions that stay.  An action all of whose locators
    have [uses <= 0] is removed exactly when [force] is true: without
    [force] every action stays, whatever scores the page holds; with
    [force] the actions that stay are those with a locator of positive
    [uses]. *)
Theorem Page_clean_actions (p : Page) :
  (exists n p' saved k,
     Page_clean false p = Some (n, p', saved) /\
     Locators_clean false (page_locators p) = Some (k, page_locators p') /\
     Forall2 (fun a a' => exists k, Action_clean false a = Some (k, a'))
       (actions p) (actions p')) /\
  (exists n p' saved k,
     Page_clean true p = Some (n, p', saved) /\
     Locators_clean true (page_locators p) = Some (k, page_locators p') /\
     Forall2 (fun a a' => exists k, Action_clean true a = Some (k, a'))
       (List.filter
          (fun a => negb (forallb (fun l => uses l <=? 0) (locators a)))
          (actions p))
       (actions p')).
Proof.
  split.
  - unfold Page_clean. rewrite Locators_clean_eq. cbn [mbind option_bind].
    destruct (clean_actions_Forall2 false (actions p)) as (m & acts & Hc & HF).
    rewrite andb_false_r.
    destruct (false || existsb confirmed (inclusions (page_locators p))
                    || existsb confirmed (exclusions (page_locators p)));
      cbn [mbind option_bind]; rewrite Hc;
      cbn [mbind option_bind]; eexists _, _, _, _; (split; [reflexivity|split; [reflexivity|exact HF]]).
  - unfold Page_clean. rewrite Locators_clean_eq. cbn [mbind option_bind].
    fold unused. fold unused_action.
    change (fun a => forallb unused (locators a)) with unused_action.
    change (fun a => negb (forallb unused (locators a)))
      with (fun a => negb (unused_action a)).
    destruct (clean_actions_Forall2 true
                (List.filter (fun a => negb (unused_action a)) (actions p)))
      as (m & acts & Hc & HF).
    rewrite andb_true_r.
    destruct (List.filter unused_action (actions p)) as [|u us] eqn:Hu.
    + apply filter_none_negb in Hu. rewrite Hu in Hc.
      cbn [length Nat.eqb negb mbind option_bind]. rewrite Hc.
      cbn [mbind option_bind]. eexists _, _, _, _. split; [reflexivity|split; [reflexivity|exact HF]].
    + rewrite <- Hu, remove_unused_actions. rewrite Hu.
      cbn [length Nat.eqb negb mbind option_bind]. rewrite Hc.
      cbn [mbind option_bind]. eexists _, _, _, _. split; [reflexivity|split; [reflexivity|exact HF]].
Qed.

(** ** The stable descending sort *)

Section SortedReverse.
Context {A : Type} (key : A -> Z).

Lemma insert_desc_Permutation (x : A) (l : list A) :
  Permutation (insert_desc key x l) (x :: l).
Proof.
  induction l as [|y l IH]; [done|]. cbn [insert_desc].
  destruct (key y <=? key x); [done|].
  rewrite IH. apply perm_swap.
Qed.

Lemma sorted_reverse_Permutation (l : list A) :
  Permutation (sorted_reverse key l) l.
Proof.
  induction l as [|x l IH]; [done|]. cbn [sorted_reverse].
  rewrite insert_desc_Permutation. by constructor.
Qed.

Lemma insert_desc_sorted (x : A) (l : list A) :
  StronglySorted (descending key) l -> StronglySorted (descending key) (insert_desc key x l).
Proof.
  induction 1 as [|y l Hl IH Hy]; cbn [insert_desc].
  - repeat constructor.
  - destruct (Z.leb_spec (key y) (key x)) as [Hle|Hgt].
    + constructor; [by constructor|].
      constructor; [done|].
      eapply Forall_impl; [exact Hy|]. unfold descending. intros; cbn in *; lia.
    + constructor; [done|].
      rewrite insert_desc_Permutation.
      constructor; [unfold descending; lia | done].
Qed.

Lemma sorted_reverse_sorted (l : list A) :
  StronglySorted (descending key) (sorted_reverse key l).
Proof.
  induction l as [|x l IH]; [constructor|]. by apply insert_desc_sorted.
Qed.

Lemma filter_sorted (f : A -> bool) (l : list A) :
  StronglySorted (descending key) l -> StronglySorted (descending key) (List.filter f l).
Proof.
  induction 1 as [|y l Hl IH Hy]; [constructor|]. cbn [List.filter].
  destruct (f y); [|done]. constructor; [done|].
  apply Forall_forall. intros z Hz%list_elem_of_In.
  apply filter_In in Hz as [Hz _].
  rewrite Forall_forall in Hy. by apply Hy, list_elem_of_In.
Qed.

End SortedReverse.

(** Sorting commutes with any relabelling that leaves the keys alone. *)
Lemma insert_desc_map {A B : Type} (key : A -> Z) (f : B -> A) (x : B) (l : list B) :
  insert_desc key (f x) (map f l)
  = map f (insert_desc (fun y => key (f y)) x l).
Proof.
  induction l as [|y l IH]; [done|]. cbn [map insert_desc].
  destruct (key (f y) <=? key (f x)); [done|]. by rewrite IH.
Qed.

Lemma sorted_reverse_map {A B : Type} (key : A -> Z) (f : B -> A) (l : list B) :
  sorted_reverse key (map f l)
  = map f (sorted_reverse (fun y => key (f y)) l).
Proof.
  induction l as [|x l IH]; [done|]. cbn [map sorted_reverse].
  by rewrite IH, insert_desc_map.
Qed.

(** ** Candidate lists *)

Lemma Locator_bool_spec (l : Locator) :
  Locator_bool l = true <-> mode l <> "" /\ value l <> "".
Proof.
  unfold Locator_bool. rewrite andb_true_iff.
  destruct (mode l), (value l); cbn; intuition congruence.
Qed.

Lemma candidates_of_sorted (ls : list Locator) :
  candidates_of ls (List.filter Locator_bool (sorted_reverse uses ls)).
Proof.
  unfold candidates_of. split; [|split].
  - induction (sorted_reverse_Permutation uses ls); cbn [List.filter].
    + done.
    + destruct (Locator_bool x); [by constructor|done].
    + destruct (Locator_bool x), (Locator_bool y); try done. apply perm_swap.
    + etransitivity; eassumption.
  - apply (filter_sorted uses), sorted_reverse_sorted.
  - intros l. rewrite filter_In, Locator_bool_spec.
    split; intros [Hin Hl]; (split; [|done]).
    + by apply (Permutation_in _ (sorted_reverse_Permutation uses ls)).
    + by apply (Permutation_in _ (Permutation_sym (sorted_reverse_Permutation uses ls))).
Qed.

(** C7: [sorted_locators], [sorted_inclusions] and [sorted_exclusions]
    hold exactly the owned locators with non-empty [mode] and [value], in
    descending order of [uses]; a locator with an empty [mode] or [value]
    is never among them, whatever its score; and the order produced by
    the sort is the same whatever the [mode], [value] and [index] of the
    locators are. *)
Theorem sorted_candidates_spec :
  (forall a : Action, candidates_of (locators a) (sorted_locators a)) /\
  (forall s : Locators, candidates_of (inclusions s) (sorted_inclusions s)) /\
  (forall s : Locators, candidates_of (exclusions s) (sorted_exclusions s)) /\
  (forall (m v : string) (i u : Z) (ls : list Locator),
     Locator_bool (mkLocator m v i u) = false ->
     ~ In (mkLocator m v i u) (List.filter Locator_bool (sorted_reverse uses ls))) /\
  (forall (m v : Locator -> string) (i : Locator -> Z) (ls : list Locator),
     sorted_reverse uses (map (relabel m v i) ls)
     = map (relabel m v i) (sorted_reverse uses ls)).
Proof.
  split; [intros a; apply candidates_of_sorted|].
  split; [intros s; apply candidates_of_sorted|].
  split; [intros s; apply candidates_of_sorted|].
  split.
  - intros m v i u ls Hl Hin. apply filter_In in Hin as [_ Hin]. congruence.
  - intros m v i ls. by rewrite sorted_reverse_map.
Qed.

(** ** Dispatch *)

Section DispatchFacts.
Context `{Driver}.

Lemma sorted_refs_pair (l1 l2 : Locator) :
  Locator_bool l1 = true -> Locator_bool l2 = true -> uses l2 <= uses l1 ->
  sorted_refs [l1; l2] = [0%nat; 1%nat].
Proof.
  intros H1 H2 Hle. unfold sorted_refs, enumerate.
  cbn [enumerate_from sorted_reverse insert_desc snd].
  apply Z.leb_le in Hle. rewrite Hle.
  cbn [List.filter snd]. by rewrite H1, H2.
Qed.

Lemma sorted_refs_pair_swapped (l1 l2 : Locator) :
  Locator_bool l1 = true -> Locator_bool l2 = true -> uses l2 < uses l1 ->
  sorted_refs [l2; l1] = [1%nat; 0%nat].
Proof.
  intros H1 H2 Hlt. unfold sorted_refs, enumerate.
  cbn [enumerate_from sorted_reverse insert_desc snd].
  apply Z.leb_gt in Hlt. rewrite Hlt.
  cbn [List.filter snd insert_desc]. by rewrite H1, H2.
Qed.

(** C5: a click action holds two usable locators; the one with the
    higher score, tried first, finds no element, the other one finds an
    element and the click on it returns.  Then [_trying_locators] reports
    success, the repair prompt is not reached, the first locator has been
    put through [score(-1)] and the second through [score(+1)]: their
    [uses] are [max(-1, uses - 1)] and [min(99, max(1, uses + 1))], that
    is one less and one more wherever the clamps do not bite.  The same
    holds when the action stores the two locators in the other order and
    the scores differ. *)
Theorem dispatch_falls_back (args : Args) (b b' : Browser) (e : Element)
    (target : string) (l1 l2 l2' : Locator) (answers : list (string * string)) :
  Verb_TYPE <> "click" ->
  Locator_bool l1 = true -> Locator_bool l2 = true ->
  uses l2 <= uses l1 ->
  fst (Locator_find b l1) = None ->
  Locator_find b l2 = (Some e, l2') ->
  call_verb "click" args e b = (true, b') ->
  let a := mkAction "click" target [l1; l2] in
  let l1_after := snd (Locator_score (-1) l1) in
  let l2_after := snd (Locator_score 1 l2') in
  let a_after := mkAction "click" target [l1_after; l2_after] in
  let b_after := post_action "click" (browser_url b) args b' in
  Action_trying_locators args b a = (false, b_after, a_after) /\
  repair_loop answers args b a = Some (false, b_after, a_after, answers) /\
  (uses l2 < uses l1 ->
   Action_trying_locators args b (mkAction "click" target [l2; l1])
   = (false, b_after, mkAction "click" target [l2_after; l1_after])) /\
  uses l1_after = Z.max (-1) (uses l1 - 1) /\
  uses l2_after = Z.min 99 (Z.max 1 (uses l2 + 1)) /\
  (0 <= uses l1 -> uses l1_after = uses l1 - 1) /\
  (0 <= uses l2 < 99 -> uses l2_after = uses l2 + 1).
Proof.
  intros Hverb H1 H2 Hle Hf1 Hf2 Hcall a l1_after l2_after a_after b_after.
  assert (Htry : Action_trying_locators args b a = (false, b_after, a_after)).
  { unfold Action_trying_locators. cbn [verb a locators].
    apply not_eq_sym, String.eqb_neq in Hverb. rewrite Hverb.
    rewrite (sorted_refs_pair l1 l2 H1 H2 Hle).
    cbn [trying_refs lookup list_lookup]. rewrite H1.
    destruct (Locator_find b l1) as [el l1x] eqn:Hfind1.
    cbn [fst] in Hf1. subst el.
    pose proof (find_unfound b l1) as Hsame. rewrite Hfind1 in Hsame.
    cbn [fst snd] in Hsame. rewrite (Hsame eq_refl).
    cbn [insert list_insert lookup list_lookup]. rewrite H2, Hf2.
    unfold Action_perform_action. subst a. cbn [verb]. rewrite Hcall.
    reflexivity. }
  split; [exact Htry|].
  split.
  { destruct answers; cbn [repair_loop]; by rewrite Htry. }
  split.
  { intros Hlt. unfold Action_trying_locators. cbn [verb locators].
    apply not_eq_sym, String.eqb_neq in Hverb. rewrite Hverb.
    rewrite (sorted_refs_pair_swapped l1 l2 H1 H2 Hlt).
    cbn [trying_refs lookup list_lookup]. rewrite H1.
    destruct (Locator_find b l1) as [el l1x] eqn:Hfind1.
    cbn [fst] in Hf1. subst el.
    pose proof (find_unfound b l1) as Hsame. rewrite Hfind1 in Hsame.
    cbn [fst snd] in Hsame. rewrite (Hsame eq_refl).
    cbn [insert list_insert lookup list_lookup]. rewrite H2, Hf2.
    unfold Action_perform_action. cbn [verb]. rewrite Hcall.
    reflexivity. }
  pose proof (find_frame b l2) as (_ & _ & Hu2). rewrite Hf2 in Hu2.
  cbn [snd] in Hu2.
  subst l1_after l2_after. rewrite !Locator_score_uses, Hu2.
  cbn [Z.ltb Z.compare].
  repeat split; intros; lia.
Qed.

End DispatchFacts.

(** ** References into the owning list *)

Lemma enumerate_from_In {A : Type} (i : nat) (ls : list A) (r : nat) (x : A) :
  In (r, x) (enumerate_from i ls) ->
  exists k, r = (i + k)%nat /\ ls !! k = Some x.
Proof.
  revert i. induction ls as [|y ls IH]; intros i; [done|].
  cbn [enumerate_from In]. intros [[= <- <-]|Hin].
  - exists 0%nat. split; [lia|done].
  - apply IH in Hin as (k & -> & Hk). exists (S k). split; [lia|done].
Qed.

Lemma enumerate_from_fst {A : Type} (i : nat) (ls : list A) :
  map fst (enumerate_from i ls) = seq i (length ls).
Proof.
  revert i. induction ls as [|y ls IH]; intros i; [done|].
  cbn. by rewrite IH.
Qed.

Lemma enumerate_from_snd {A : Type} (i : nat) (ls : list A) :
  map snd (enumerate_from i ls) = ls.
Proof.
  revert i. induction ls as [|y ls IH]; intros i; [done|].
  cbn. by rewrite IH.
Qed.

Lemma filter_map_comm {A B : Type} (f : B -> bool) (g : A -> B) (l : list A) :
  List.filter f (map g l) = map g (List.filter (fun x => f (g x)) l).
Proof.
  induction l as [|x l IH]; [done|]. cbn. destruct (f (g x)); cbn; by rewrite IH.
Qed.

Lemma NoDup_map_filter {A B : Type} (g : A -> B) (f : A -> bool) (l : list A) :
  NoDup (map g l) -> NoDup (map g (List.filter f l)).
Proof.
  induction l as [|x l IH]; [done|]. cbn [map List.filter].
  intros [Hx Hl]%NoDup_cons. destruct (f x); [|by apply IH].
  cbn [map]. apply NoDup_cons. split; [|by apply IH].
  intros Hin%list_elem_of_In. apply Hx, list_elem_of_In.
  apply in_map_iff in Hin as (y & Hy & Hin). apply in_map_iff.
  exists y. split; [done|]. by apply filter_In in Hin as [Hin _].
Qed.

Lemma sorted_pairs_In (ls : list Locator) (r : nat) (l : Locator) :
  In (r, l) (sorted_pairs ls) -> ls !! r = Some l /\ Locator_bool l = true.
Proof.
  unfold sorted_pairs. intros [Hin Hb]%filter_In. split; [|done].
  apply (Permutation_in _ (sorted_reverse_Permutation _ _)) in Hin.
  by apply enumerate_from_In in Hin as (k & -> & Hk).
Qed.

Lemma sorted_refs_In (ls : list Locator) (r : nat) :
  In r (sorted_refs ls) ->
  exists l, ls !! r = Some l /\ Locator_bool l = true.
Proof.
  unfold sorted_refs. fold (sorted_pairs ls).
  intros ([r' l] & <- & Hin)%in_map_iff. exists l. by apply sorted_pairs_In.
Qed.

Lemma sorted_refs_NoDup (ls : list Locator) : NoDup (sorted_refs ls).
Proof.
  unfold sorted_refs. apply NoDup_map_filter.
  rewrite (Permutation_map fst (sorted_reverse_Permutation _ (enumerate ls))).
  unfold enumerate. rewrite enumerate_from_fst. apply NoDup_ListNoDup, seq_NoDup.
Qed.

(** The references point, in order, at the locators of the candidate
    list computed on values. *)
Lemma sorted_refs_candidates (ls : list Locator) :
  Forall2 (fun r l => ls !! r = Some l)
    (sorted_refs ls) (List.filter Locator_bool (sorted_reverse uses ls)).
Proof.
  assert (Hsnd : List.filter Locator_bool (sorted_reverse uses ls)
                 = map snd (sorted_pairs ls)).
  { unfold sorted_pairs, enumerate.
    rewrite <- (enumerate_from_snd 0 ls) at 1.
    by rewrite sorted_reverse_map, filter_map_comm. }
  rewrite Hsnd. unfold sorted_refs. fold (sorted_pairs ls).
  pose proof (sorted_pairs_In ls) as Hin. revert Hin.
  generalize (sorted_pairs ls) as ps.
  induction ps as [|[r l] ps IH]; intros Hin; cbn [map]; constructor.
  - apply Hin. by left.
  - apply IH. intros r' l' Hps. apply Hin. by right.
Qed.

Lemma alter_as_insert {A : Type} (f : A -> A) (ls : list A) (r : nat) (x : A) :
  ls !! r = Some x -> alter f r ls = <[r := f x]> ls.
Proof.
  revert r. induction ls as [|y ls IH]; intros [|r]; cbn; try done.
  - by intros [= ->].
  - intros Hr. by rewrite <- IH.
Qed.

Lemma updated_at_notin {A : Type} (f : A -> A) (refs : list nat) (ls : list A)
    (r : nat) :
  ~ In r refs -> updated_at f refs ls !! r = ls !! r.
Proof.
  revert ls. induction refs as [|r' refs IH]; intros ls Hr; [done|].
  cbn [updated_at fold_left]. unfold updated_at in IH. rewrite IH.
  - apply list_lookup_alter_ne. intros ->. apply Hr. by left.
  - intros Hin. apply Hr. by right.
Qed.

Lemma updated_at_in {A : Type} (f : A -> A) (refs : list nat) (ls : list A)
    (r : nat) (x : A) :
  NoDup refs -> In r refs -> ls !! r = Some x ->
  updated_at f refs ls !! r = Some (f x).
Proof.
  revert ls. induction refs as [|r' refs IH]; intros ls Hnd Hin Hx; [done|].
  apply NoDup_cons in Hnd as [Hr' Hnd]. cbn [updated_at fold_left].
  destruct Hin as [->|Hin].
  - fold (updated_at f refs (alter f r ls)). rewrite updated_at_notin.
    + by rewrite list_lookup_alter_eq, Hx.
    + by rewrite <- list_elem_of_In.
  - apply IH; [done..|]. rewrite list_lookup_alter_ne; [done|].
    intros ->. by apply Hr', list_elem_of_In.
Qed.

(** ** Page identification *)

Section IdentificationFacts.
Context `{Driver}.

Lemma rescore_found_uses (b : Browser) (l : Locator) :
  uses (rescore_found b l) = Z.min 99 (Z.max 1 (uses l + 1)).
Proof.
  unfold rescore_found. rewrite Locator_score_uses.
  by destruct (find_frame b l) as (_ & _ & ->).
Qed.

Lemma set_inclusions_id (p : Page) :
  set_inclusions (inclusions (page_locators p)) p = p.
Proof. by destruct p as [d pa v [i e] a]. Qed.

(** While the referenced locators are all found, the first loop of
    [Page.active] rescans them one after the other and goes on. *)
Lemma check_inclusions_found (b : Browser) (pre rest : list nat) :
  forall (p : Page) (saved : list Page),
    NoDup pre ->
    Forall (fun r => exists l, inclusions (page_locators p) !! r = Some l /\
                               fst (Locator_find b l) <> None) pre ->
    exists saved',
      check_inclusions b (pre ++ rest) p saved
      = check_inclusions b rest
          (set_inclusions
             (updated_at (rescore_found b) pre (inclusions (page_locators p))) p)
          saved'.
Proof.
  induction pre as [|r pre IH]; intros p saved Hnd Hpre.
  - exists saved. cbn [app updated_at fold_left]. by rewrite set_inclusions_id.
  - apply NoDup_cons in Hnd as [Hr Hnd].
    apply Forall_cons in Hpre as [(l & Hl & Hfound) Hpre].
    cbn [app check_inclusions]. rewrite Hl.
    unfold updated_at. cbn [fold_left].
    rewrite (alter_as_insert _ _ _ _ Hl). unfold rescore_found at 2.
    destruct (Locator_find b l) as [[e|] l1]; [|by cbn in Hfound]. cbn [snd].
    destruct (Locator_score 1 l1) as [moved l2]. cbn [snd].
    set (p' := set_inclusions (<[r:=l2]> (inclusions (page_locators p))) p).
    destruct (IH p' (if moved then saved ++ [p'] else saved) Hnd) as [saved' ->].
    + (* the update at [r] is invisible at the other references *)
      rewrite Forall_forall in Hpre. apply Forall_forall. intros r' Hin.
      destruct (Hpre r' Hin) as (l' & Hl' & Hf'). exists l'. split; [|done].
      subst p'. cbn [inclusions page_locators set_inclusions set_page_locators].
      rewrite list_lookup_insert_ne; [done|]. by intros ->.
    + by exists saved'.
Qed.

Lemma check_inclusions_frame (b : Browser) (refs : list nat) :
  forall (p : Page) (saved : list Page),
    let p' := snd (fst (check_inclusions b refs p saved)) in
    domain p' = domain p /\ path p' = path p /\ variant p' = variant p /\
    exclusions (page_locators p') = exclusions (page_locators p) /\
    actions p' = actions p.
Proof.
  induction refs as [|r refs IH]; intros p saved; [done|].
  cbn [check_inclusions].
  destruct (inclusions (page_locators p) !! r) as [l|]; [|apply IH].
  destruct (Locator_find b l) as [[e|] l1]; [|done].
  destruct (Locator_score 1 l1) as [moved l2].
  match goal with |- context [check_inclusions b refs ?q ?s] =>
    specialize (IH q s) end.
  exact IH.
Qed.

Lemma check_exclusions_frame (b : Browser) (refs : list nat) :
  forall (p : Page) (saved : list Page),
    let p' := snd (fst (check_exclusions b refs p saved)) in
    domain p' = domain p /\ path p' = path p /\ variant p' = variant p /\
    inclusions (page_locators p') = inclusions (page_locators p) /\
    actions p' = actions p.
Proof.
  induction refs as [|r refs IH]; intros p saved; [done|].
  cbn [check_exclusions].
  destruct (exclusions (page_locators p) !! r) as [l|]; [|apply IH].
  destruct (Locator_find b l) as [[e|] l1].
  - by destruct (Locator_score 1 l1) as [moved l2].
  - match goal with |- context [check_exclusions b refs ?q ?s] =>
      specialize (IH q s) end.
    exact IH.
Qed.

(** C6: when the page's URL matches, the inclusion locators are taken in
    the order of [sorted_inclusions]; if those referenced by [pre] are
    found and the next one, at [r], is not, then [Page.active] answers
    [false], the exclusion locators are exactly as before (none was
    evaluated), every locator referenced by [pre] has gone through
    [find] and [score(+1)], so its [uses] is [min(99, max(1, uses + 1))],
    and all other inclusion locators are as before. *)
Theorem active_stops_at_missing_inclusion (b : Browser) (p : Page)
    (pre post : list nat) (r : nat) (l : Locator) :
  URL_eq (domain p) (path p) (browser_url b) = true ->
  sorted_refs (inclusions (page_locators p)) = pre ++ r :: post ->
  Forall (fun i => exists li, inclusions (page_locators p) !! i = Some li /\
                              fst (Locator_find b li) <> None) pre ->
  inclusions (page_locators p) !! r = Some l ->
  fst (Locator_find b l) = None ->
  Forall2 (fun i li => inclusions (page_locators p) !! i = Some li)
    (sorted_refs (inclusions (page_locators p)))
    (sorted_inclusions (page_locators p)) /\
  exists p' saved,
    Page_active b p = (false, p', saved) /\
    exclusions (page_locators p') = exclusions (page_locators p) /\
    actions p' = actions p /\
    (forall i li, In i pre -> inclusions (page_locators p) !! i = Some li ->
       inclusions (page_locators p') !! i = Some (rescore_found b li) /\
       uses (rescore_found b li) = Z.min 99 (Z.max 1 (uses li + 1))) /\
    (forall i, ~ In i pre ->
       inclusions (page_locators p') !! i = inclusions (page_locators p) !! i).
Proof.
  intros Hurl Hrefs Hpre Hl Hmiss.
  split; [apply sorted_refs_candidates|].
  pose proof (sorted_refs_NoDup (inclusions (page_locators p))) as Hnd.
  rewrite Hrefs in Hnd. apply NoDup_app in Hnd as (Hndpre & Hsep & _).
  assert (Hr : ~ In r pre).
  { intros Hin%list_elem_of_In. apply (Hsep r Hin). by left. }
  destruct (check_inclusions_found b pre (r :: post) p [] Hndpre Hpre)
    as [saved Hloop].
  set (incl' := updated_at (rescore_found b) pre (inclusions (page_locators p))).
  fold incl' in Hloop.
  assert (Hl' : incl' !! r = Some l).
  { subst incl'. by rewrite updated_at_notin. }
  exists (set_inclusions incl' p), saved.
  split.
  { unfold Page_active. rewrite Hurl, Hrefs, Hloop. cbn [negb check_inclusions].
    cbn [inclusions page_locators set_inclusions set_page_locators]. rewrite Hl'.
    destruct (Locator_find b l) as [el l1] eqn:Hfind.
    cbn [fst] in Hmiss. subst el.
    pose proof (find_unfound b l) as Hsame. rewrite Hfind in Hsame.
    cbn [fst snd] in Hsame. rewrite (Hsame eq_refl), (list_insert_id _ _ _ Hl').
    reflexivity. }
  split; [done|]. split; [done|]. split.
  - intros i li Hin Hi. split; [|apply rescore_found_uses].
    cbn [inclusions page_locators set_inclusions set_page_locators].
    subst incl'. by apply updated_at_in.
  - intros i Hi. cbn [inclusions page_locators set_inclusions set_page_locators].
    subst incl'. by apply updated_at_notin.
Qed.

End IdentificationFacts.

(** ** Registry disambiguation *)

Section RegistryFacts.
Context `{Driver}.

Lemma Page_active_frame (b : Browser) (p : Page) :
  domain (snd (fst (Page_active b p))) = domain p /\
  path (snd (fst (Page_active b p))) = path p.
Proof.
  unfold Page_active.
  destruct (negb (URL_eq (domain p) (path p) (browser_url b))); [done|].
  pose proof (check_inclusions_frame b
                (sorted_refs (inclusions (page_locators p))) p []) as Hi.
  destruct (check_inclusions b _ p []) as [[ok p1] saved1]. cbn in Hi.
  destruct Hi as (Hd1 & Hp1 & _). destruct ok; [|done].
  pose proof (check_exclusions_frame b
                (sorted_refs (exclusions (page_locators p1))) p1 saved1) as He.
  destruct (check_exclusions b _ p1 saved1) as [[found p2] saved2]. cbn in He.
  destruct He as (Hd2 & Hp2 & _). cbn. split; congruence.
Qed.

Lemma Page_active_exact (b : Browser) (p : Page) :
  Page_exact (snd (fst (Page_active b p))) = Page_exact p.
Proof.
  unfold Page_exact. by destruct (Page_active_frame b p) as [_ ->].
Qed.

Lemma auto_scan_finds_exact (b : Browser) (objects : list Page) (q : Page) :
  In q objects -> domain q = URL_domain (browser_url b) -> Page_exact q = true ->
  existsb (fun r => Page_exact (snd (fst r))) (auto_scan b objects) = true.
Proof.
  intros Hin Hdom Hexact. apply existsb_exists.
  exists (Page_active b q). split; [|by rewrite Page_active_exact].
  unfold auto_scan, domain_pages. apply in_map, filter_In. split; [done|].
  by apply String.eqb_eq.
Qed.

(** C4: as soon as the registry holds one exact page of the current
    domain, active or not, the matches [auto] chooses from are the exact
    active pages only, so the page returned is an exact page of the
    registry or, when no exact page is active, a new page; in
    particular, of one exact and one abstract page that are both active,
    the exact one is returned, in whichever order the registry lists
    them. *)
Theorem auto_prefers_exact (b : Browser) :
  (forall (objects : list Page) (q : Page),
     In q objects ->
     domain q = URL_domain (browser_url b) ->
     Page_exact q = true ->
     auto_matching b objects = List.filter Page_exact (active_pages b objects) /\
     (forall p', In p' (auto_matching b objects) -> Page_exact p' = true) /\
     (In (fst (fst (auto b objects))) (auto_matching b objects) \/
      auto_matching b objects = [] /\
      fst (fst (auto b objects)) = fst (Page_at (browser_url b) "" b))) /\
  (forall pe pt : Page,
     domain pe = URL_domain (browser_url b) ->
     domain pt = URL_domain (browser_url b) ->
     Page_exact pe = true ->
     Page_exact pt = false ->
     fst (fst (Page_active b pe)) = true ->
     fst (fst (Page_active b pt)) = true ->
     auto_matching b [pe; pt] = [snd (fst (Page_active b pe))] /\
     auto_matching b [pt; pe] = [snd (fst (Page_active b pe))] /\
     fst (fst (auto b [pe; pt])) = snd (fst (Page_active b pe)) /\
     fst (fst (auto b [pt; pe])) = snd (fst (Page_active b pe))).
Proof.
  split.
  - intros objects q Hin Hdom Hexact.
    assert (Hm : auto_matching b objects
                 = List.filter Page_exact (active_pages b objects)).
    { unfold auto_matching. cbn zeta.
      by rewrite (auto_scan_finds_exact b objects q). }
    split; [exact Hm|]. split.
    + intros p'. rewrite Hm. by intros [_ Hp']%filter_In.
    + unfold auto. destruct (auto_matching b objects) as [|page rest].
      * right. split; [done|]. by destruct (Page_at (browser_url b) "" b).
      * left. by left.
  - intros pe pt Hde Hdt Hexe Hext Hae Hat.
    apply String.eqb_eq in Hde, Hdt.
    assert (Hm1 : auto_matching b [pe; pt] = [snd (fst (Page_active b pe))]).
    { unfold auto_matching, active_pages, auto_scan, domain_pages.
      cbn [List.filter]. rewrite Hde, Hdt. cbn [map existsb List.filter].
      rewrite !Page_active_exact, Hexe, Hae, Hat. cbn [orb map List.filter].
      by rewrite !Page_active_exact, Hexe, Hext. }
    assert (Hm2 : auto_matching b [pt; pe] = [snd (fst (Page_active b pe))]).
    { unfold auto_matching, active_pages, auto_scan, domain_pages.
      cbn [List.filter]. rewrite Hde, Hdt. cbn [map existsb List.filter].
      rewrite !Page_active_exact, Hexe, Hext, Hae, Hat.
      cbn [orb map List.filter].
      by rewrite !Page_active_exact, Hexe, Hext. }
    split; [exact Hm1|]. split; [exact Hm2|].
    unfold auto. by rewrite Hm1, Hm2.
Qed.

End RegistryFacts.

(** ** Interactive repair *)

Lemma labels_insert (ls : list Locator) (r : nat) (l x : Locator) :
  ls !! r = Some l -> mode x = mode l -> value x = value l ->
  labels (<[r := x]> ls) = labels ls.
Proof.
  intros Hl Hm Hv. unfold labels.
  change (map ?f ?l) with (f <$> l). rewrite list_fmap_insert.
  apply list_insert_id. rewrite list_lookup_fmap, Hl. cbn. by rewrite Hm, Hv.
Qed.

Section RepairFacts.
Context `{Driver}.

Lemma trying_refs_labels (a : Action) (args : Args) (refs : list nat) :
  forall (b : Browser) (ls : list Locator),
    labels (snd (trying_refs a args refs b ls)) = labels ls.
Proof.
  induction refs as [|r refs IH]; intros b ls; [done|].
  cbn [trying_refs]. destruct (ls !! r) as [l|] eqn:Hl; [|apply IH].
  destruct (Locator_score_frame 1 l) as (Hm1 & Hv1 & _).
  destruct (Locator_score_frame (-1) l) as (Hm0 & Hv0 & _).
  destruct (Locator_bool l).
  - pose proof (find_frame b l) as (Hfm & Hfv & _).
    destruct (Locator_find b l) as [[e|] l1]; cbn [snd] in Hfm, Hfv.
    + destruct (Locator_score_frame 1 l1) as (Hm2 & Hv2 & _).
      destruct (Locator_score_frame (-1) l1) as (Hm3 & Hv3 & _).
      destruct (Action_perform_action a _ args b) as [[|] b1].
      * cbn [snd]. apply (labels_insert _ _ l); congruence.
      * rewrite IH. apply (labels_insert _ _ l); congruence.
    + destruct (Locator_score_frame (-1) l1) as (Hm3 & Hv3 & _).
      rewrite IH. apply (labels_insert _ _ l); congruence.
  - rewrite IH. by apply (labels_insert _ _ l).
Qed.

Lemma Action_trying_locators_frame (args : Args) (b : Browser) (a : Action) :
  let a' := snd (Action_trying_locators args b a) in
  verb a' = verb a /\ name a' = name a /\
  labels (locators a') = labels (locators a).
Proof.
  unfold Action_trying_locators.
  destruct (String.eqb (verb a) Verb_TYPE).
  - by destruct (Action_perform_action a (send_keys (name a)) args b).
  - pose proof (trying_refs_labels a args (sorted_refs (locators a)) b (locators a))
      as Hlab.
    by destruct (trying_refs a args _ b (locators a)) as [[failed b'] ls].
Qed.

(** Whatever the operator answers, the locators of the action afterwards
    are the original ones (rescored) followed by one locator for each
    answer with a non-empty mode that was read. *)
Lemma repair_loop_labels (args : Args) (answers : list (string * string)) :
  forall (b : Browser) (a : Action) r b' a' rest,
    repair_loop answers args b a = Some (r, b', a', rest) ->
    verb a' = verb a /\
    exists consumed,
      answers = consumed ++ rest /\
      labels (locators a')
      = labels (locators a) ++ List.filter (fun mv => str_bool (fst mv)) consumed.
Proof.
  induction answers as [|[m v] answers IH]; intros b a r b' a' rest;
    cbn [repair_loop];
    pose proof (Action_trying_locators_frame args b a) as (Hverb & _ & Hlab);
    destruct (Action_trying_locators args b a) as [[failed b1] a1];
    cbn [snd] in Hverb, Hlab; destruct failed; try done.
  - intros [= <- <- <- <-]. split; [done|]. exists [].
    split; [done|]. cbn [List.filter]. by rewrite app_nil_r.
  - destruct (str_bool m) eqn:Hm.
    + intros Hloop. apply IH in Hloop as (Hv' & consumed & -> & Hlab').
      split; [by rewrite Hv'|]. exists ((m, v) :: consumed). split; [done|].
      rewrite Hlab'. cbn [locators set_locators List.filter fst]. rewrite Hm.
      unfold labels at 1. rewrite map_app, <- app_assoc. cbn [map app].
      by fold (labels (locators a1)); rewrite Hlab.
    + intros [= <- <- <- <-]. split; [done|]. exists [(m, v)].
      split; [done|]. cbn [List.filter fst]. by rewrite Hm, app_nil_r.
  - intros [= <- <- <- <-]. split; [done|]. exists [].
    split; [done|]. cbn [List.filter]. by rewrite app_nil_r.
Qed.

(** C8, as the code has it: when every candidate fails and the operator
    declines, the loop is left at once, no locator is appended, and
    [_call_method] returns a page to its caller as it does after a
    successful attempt (the page it was given for an updating verb, the
    page found by [auto] otherwise): it does not raise, and it reports
    nothing about the failure.  A locator, with index 0 and score 0, is
    appended exactly when the operator's answer has a non-empty mode. *)
Theorem declined_repair_returns_page {P : Type} (page : option P)
    (args : Args) (objects : list Page) (b : Browser) (a : Action) :
  (forall b1 a1 m v rest,
     Action_trying_locators args b a = (true, b1, a1) ->
     str_bool m = false ->
     repair_loop ((m, v) :: rest) args b a = Some (true, b1, a1, rest) /\
     labels (locators a1) = labels (locators a) /\
     exists b2 saved,
       Action_call_method page ((m, v) :: rest) args objects b a
       = Some (match page with
               | Some pg =>
                   if Verb_updates (verb a) then inl pg
                   else inr (fst (fst (auto b1 objects)))
               | None => inr (fst (fst (auto b1 objects)))
               end, b2, a1, saved)) /\
  (forall b1 a1 m v rest,
     Action_trying_locators args b a = (true, b1, a1) ->
     str_bool m = true ->
     repair_loop ((m, v) :: rest) args b a
     = repair_loop rest args b1
         (set_locators (locators a1 ++ [mkLocator m v 0 0]) a1)) /\
  (forall answers r b' a' rest,
     repair_loop answers args b a = Some (r, b', a', rest) ->
     exists consumed,
       answers = consumed ++ rest /\
       labels (locators a')
       = labels (locators a) ++ List.filter (fun mv => str_bool (fst mv)) consumed).
Proof.
  split; [|split].
  - intros b1 a1 m v rest Htry Hm.
    pose proof (Action_trying_locators_frame args b a) as (Hverb & _ & Hlab).
    rewrite Htry in Hverb, Hlab. cbn [snd] in Hverb, Hlab.
    assert (Hloop : repair_loop ((m, v) :: rest) args b a
                    = Some (true, b1, a1, rest)).
    { cbn [repair_loop]. by rewrite Htry, Hm. }
    split; [exact Hloop|]. split; [exact Hlab|].
    unfold Action_call_method. rewrite Hloop. cbn [mbind option_bind].
    rewrite Hverb.
    destruct (auto b1 objects) as [[found b2] saved]. cbn [fst].
    destruct page as [pg|]; [destruct (Verb_updates (verb a))|];
      eexists _, _; reflexivity.
  - intros b1 a1 m v rest Htry Hm. cbn [repair_loop]. by rewrite Htry, Hm.
  - intros answers r b' a' rest Hloop.
    by apply repair_loop_labels in Hloop as [_ Hloop].
Qed.

End RepairFacts.

(** ** Worked examples *)

(** C3, counterexample: no exclusion locator has reached 99, yet the
    unforced clean removes the stale exclusion locator, licensed by the
    confirmed inclusion locator on the other side. *)
Lemma clean_trigger_crosses_sides :
  Forall (fun l => uses l < 99) (exclusions demo_set) /\
  Locators_clean false demo_set
  = Some (1%nat, mkLocators [mkLocator "id" "main" 0 99] []).
Proof.
  split; [|reflexivity]. repeat constructor.
Qed.

Lemma clean_trigger_witness :
  Action_clean false
    (mkAction "click" "go" [mkLocator "id" "go" 0 0; mkLocator "css" "a" 0 5])
  = Some (0%nat,
          mkAction "click" "go" [mkLocator "id" "go" 0 0; mkLocator "css" "a" 0 5]) /\
  Locators_clean false
    (mkLocators [mkLocator "id" "main" 0 98] [mkLocator "id" "error" 0 0])
  = Some (0%nat,
          mkLocators [mkLocator "id" "main" 0 98] [mkLocator "id" "error" 0 0]).
Proof.
  destruct clean_trigger as [Hact Hset]. split.
  - apply Hact. repeat constructor.
  - apply Hset; repeat constructor.
Defined.

(** C2, counterexample: the page holds locators with a score of 99, in
    its inclusions and in another action, and an action whose only
    locator has [uses = 0]; the unforced clean removes the stale locator
    of the other action and keeps the stale action. *)
Lemma unforced_clean_keeps_stale_action :
  forallb (fun l => uses l <=? 0) (locators stale_action) = true /\
  existsb (fun l => 99 <=? uses l) (inclusions (page_locators demo_gc_page)) = true /\
  exists p',
    Page_clean false demo_gc_page = Some (1%nat, p', [p']) /\
    actions p'
    = [stale_action; mkAction "click" "submit" [mkLocator "id" "submit" 0 99]].
Proof.
  split; [reflexivity|]. split; [reflexivity|].
  eexists. split; reflexivity.
Qed.

Lemma sorted_candidates_spec_witness :
  ~ In (mkLocator "" "go" 0 99)
      (sorted_locators
         (mkAction "click" "go" [mkLocator "" "go" 0 99; mkLocator "id" "go" 0 1])).
Proof.
  destruct sorted_candidates_spec as (_ & _ & _ & Hempty & _).
  apply Hempty. reflexivity.
Defined.

Lemma dispatch_falls_back_witness :
  Action_trying_locators (H := demo_driver) tt demo_doc
    (mkAction "click" "go"
       [mkLocator "id" "submit" 0 5; mkLocator "css" "email" 0 2])
  = (false, demo_doc,
     mkAction "click" "go"
       [mkLocator "id" "submit" 0 4; mkLocator "css" "email" 0 3]).
Proof.
  apply (dispatch_falls_back (H := demo_driver) tt demo_doc demo_doc shown "go"
           (mkLocator "id" "submit" 0 5) (mkLocator "css" "email" 0 2)
           (mkLocator "css" "email" 0 2) []);
    (reflexivity || discriminate || (cbn; lia)).
Defined.

Lemma active_stops_at_missing_inclusion_witness :
  exists p' saved,
    Page_active (H := demo_driver) demo_doc demo_login_page = (false, p', saved) /\
    exclusions (page_locators p') = [mkLocator "id" "error" 0 0] /\
    inclusions (page_locators p') !! 0%nat = Some (mkLocator "id" "main" 0 6).
Proof.
  destruct (active_stops_at_missing_inclusion (H := demo_driver)
              demo_doc demo_login_page [0%nat] [2%nat] 1%nat
              (mkLocator "id" "banner" 0 3))
    as (_ & p' & saved & Hact & Hexcl & _ & Hpre & _);
    try reflexivity.
  - repeat constructor. exists (mkLocator "id" "main" 0 5).
    split; [reflexivity|discriminate].
  - exists p', saved. split; [exact Hact|]. split; [exact Hexcl|].
    apply (Hpre 0%nat (mkLocator "id" "main" 0 5)); [by left|reflexivity].
Defined.

Lemma auto_prefers_exact_witness :
  fst (fst (auto (H := demo_driver) demo_doc [demo_abstract_page; demo_exact_page]))
  = demo_exact_page.
Proof.
  destruct (auto_prefers_exact (H := demo_driver) demo_doc) as [_ Hpair].
  destruct (Hpair demo_exact_page demo_abstract_page) as (_ & _ & _ & ->);
    reflexivity.
Defined.

(** C8, counterexample: the same [fill] action is dispatched on a
    document in which its locator matches nothing, the operator
    declining the repair, and on a document in which it matches a
    visible field; the caller receives the same value both times. *)
Lemma declined_repair_looks_like_success :
  fst (fst (Action_trying_locators (H := demo_driver) tt [] demo_fill)) = true /\
  fst (fst (Action_trying_locators (H := demo_driver) tt demo_doc demo_fill)) = false /\
  returned_page
    (Action_call_method (H := demo_driver) (Some demo_exact_page)
       [("", "")] tt [] [] demo_fill)
  = Some (inl demo_exact_page) /\
  returned_page
    (Action_call_method (H := demo_driver) (Some demo_exact_page)
       [] tt [] demo_doc demo_fill)
  = Some (inl demo_exact_page).
Proof. repeat split. Qed.

Lemma declined_repair_returns_page_witness :
  repair_loop (H := demo_driver) [("", "")] tt [] demo_fill
  = Some (true, [], demo_fill, []).
Proof.
  destruct (declined_repair_returns_page (H := demo_driver)
              (Some demo_exact_page) tt [] [] demo_fill) as [Hdecline _].
  destruct (Hdecline [] demo_fill "" "" []) as [-> _]; reflexivity.
Defined.

(** * Further properties *)

(** ** Repeated scoring *)

Lemma score_times_S (v : Z) (n : nat) (l : Locator) :
  score_times v (S n) l = snd (Locator_score v (score_times v n l)).
Proof. reflexivity. Qed.

Lemma score_up_S (n : nat) (l : Locator) :
  uses (score_times 1 (S n) l)
  = Z.min 99 (Z.max 1 (uses l + 1) + Z.of_nat n).
Proof.
  induction n as [|n IH].
  - rewrite score_times_S, Locator_score_uses.
    change (score_times 1 0 l) with l. cbn [Z.ltb Z.compare].
    change (Z.of_nat 0) with 0. lia.
  - rewrite score_times_S, Locator_score_uses, IH. cbn [Z.ltb Z.compare]. lia.
Qed.

Lemma score_down_S (n : nat) (l : Locator) :
  uses (score_times (-1) (S n) l) = Z.max (-1) (uses l - Z.of_nat (S n)).
Proof.
  induction n as [|n IH].
  - rewrite score_times_S, Locator_score_uses.
    change (score_times (-1) 0 l) with l. cbn [Z.ltb Z.compare]. lia.
  - rewrite score_times_S, Locator_score_uses, IH. cbn [Z.ltb Z.compare]. lia.
Qed.

(** X1: after [n >= 1] successes in a row the score is
    [min(99, max(1, uses + 1) + n - 1)], after [n >= 1] failures in a
    row it is [max(-1, uses - n)]; so from any start 99 successes reach
    99 and more than [uses] failures reach -1, and both values are then
    kept. *)
Theorem score_converges (l : Locator) (n : nat) :
  (1 <= n)%nat ->
  uses (score_times 1 n l)
  = Z.min 99 (Z.max 1 (uses l + 1) + Z.of_nat n - 1) /\
  uses (score_times (-1) n l) = Z.max (-1) (uses l - Z.of_nat n) /\
  ((99 <= n)%nat -> uses (score_times 1 n l) = 99) /\
  (uses l < Z.of_nat n -> uses (score_times (-1) n l) = -1).
Proof.
  destruct n as [|n]; [lia|]. intros _.
  rewrite score_up_S, score_down_S. repeat split; lia.
Qed.

Lemma score_converges_witness :
  uses (score_times 1 99 (mkLocator "id" "go" 0 (-1))) = 99 /\
  uses (score_times (-1) 4 (mkLocator "id" "go" 0 3)) = -1.
Proof.
  split.
  - apply (score_converges (mkLocator "id" "go" 0 (-1)) 99); lia.
  - apply (score_converges (mkLocator "id" "go" 0 3) 4); cbn; lia.
Defined.

Lemma Locator_score_flag (v : Z) (l : Locator) :
  fst (Locator_score v l) = negb (uses (snd (Locator_score v l)) =? uses l).
Proof.
  unfold Locator_score. cbn zeta.
  destruct (0 <? v); cbn [uses set_uses];
    match goal with |- context [if ?c then _ else _] => destruct c eqn:Hc end;
    cbn [fst snd uses set_uses]; by rewrite Hc.
Qed.

(** X2: [score(+1)] reports no change exactly when [uses] is 99 and
    [score(-1)] exactly when it is -1; a success never lowers a score
    that is at most 99 but cuts a higher one down to 99, and a failure
    never raises a score that is at least -1 but lifts a lower one to
    -1. *)
Theorem score_fixed_points (l : Locator) :
  (fst (Locator_score 1 l) = false <-> uses l = 99) /\
  (fst (Locator_score (-1) l) = false <-> uses l = -1) /\
  (uses l <= 99 -> uses l <= uses (snd (Locator_score 1 l))) /\
  (99 < uses l -> uses (snd (Locator_score 1 l)) = 99) /\
  (-1 <= uses l -> uses (snd (Locator_score (-1) l)) <= uses l) /\
  (uses l < -1 -> uses (snd (Locator_score (-1) l)) = -1).
Proof.
  rewrite !Locator_score_flag, !negb_false_iff, !Z.eqb_eq, !Locator_score_uses.
  cbn [Z.ltb Z.compare]. repeat split; intros; lia.
Qed.

Lemma score_fixed_points_witness :
  uses (snd (Locator_score 1 (mkLocator "id" "go" 0 250))) = 99 /\
  uses (snd (Locator_score (-1) (mkLocator "id" "go" 0 (-7)))) = -1.
Proof.
  split.
  - apply (score_fixed_points (mkLocator "id" "go" 0 250)). cbn. lia.
  - apply (score_fixed_points (mkLocator "id" "go" 0 (-7))). cbn. lia.
Defined.

(** ** Element resolution *)

Section FindFacts.
Context `{Driver}.

(** X3: when [find] returns an element, that element sits at the index
    the locator now remembers, which is the old index or, for an
    invisible first match, 1; an element returned at index 0 is visible;
    and a second [find] in the same document returns the same element
    and leaves the locator as it is. *)
Theorem find_remembers (b : Browser) (l l' : Locator) (e : Element) :
  Locator_find b l = (Some e, l') ->
  getitem (finder b (mode l) (value l)) (index l') = Some e /\
  (index l' = index l \/ index l = 0 /\ index l' = 1) /\
  (index l' = 0 -> visible e = true) /\
  Locator_find b l' = (Some e, l').
Proof.
  unfold Locator_find. cbn zeta.
  destruct (getitem (finder b (mode l) (value l)) (index l)) as [e0|] eqn:H0;
    [|discriminate].
  destruct ((index l =? 0) && negb (visible e0)) eqn:Hc.
  - apply andb_prop in Hc as [Hi%Z.eqb_eq Hv].
    destruct (getitem (finder b (mode l) (value l)) (index l + 1)) as [e1|] eqn:H1;
      [|discriminate].
    intros [= <- <-]. cbn [index mode value set_index]. rewrite Hi in *.
    change (0 + 1) with 1 in *. rewrite H1. cbn [Z.eqb andb].
    repeat split; auto. discriminate.
  - intros [= <- <-]. cbn [index mode value set_index]. rewrite H0, Hc.
    repeat split; auto. intros Hi. rewrite Hi in Hc. cbn in Hc.
    by apply negb_false_iff in Hc.
Qed.

End FindFacts.

Lemma find_remembers_witness :
  Locator_find (H := demo_driver) demo_doc (mkLocator "id" "footer" 1 0)
  = (Some shown, mkLocator "id" "footer" 1 0).
Proof.
  apply (find_remembers (H := demo_driver) demo_doc
           (mkLocator "id" "footer" 0 0) (mkLocator "id" "footer" 1 0) shown).
  reflexivity.
Defined.

(** ** Ties in the candidate order *)

Lemma insert_desc_filter_key {A : Type} (key : A -> Z) (k : Z) (x : A) (l : list A) :
  List.filter (fun y => key y =? k) (insert_desc key x l)
  = List.filter (fun y => key y =? k) (x :: l).
Proof.
  induction l as [|y l IH]; [done|]. cbn [insert_desc].
  destruct (Z.leb_spec (key y) (key x)) as [Hle|Hlt]; [done|].
  cbn [List.filter] in *. rewrite IH.
  destruct (Z.eqb_spec (key y) k), (Z.eqb_spec (key x) k); try done. lia.
Qed.

Lemma sorted_reverse_filter_key {A : Type} (key : A -> Z) (k : Z) (l : list A) :
  List.filter (fun y => key y =? k) (sorted_reverse key l)
  = List.filter (fun y => key y =? k) l.
Proof.
  induction l as [|x l IH]; [done|]. cbn [sorted_reverse].
  rewrite insert_desc_filter_key. cbn [List.filter]. by rewrite IH.
Qed.

Lemma filter_comm {A : Type} (f g : A -> bool) (l : list A) :
  List.filter f (List.filter g l) = List.filter g (List.filter f l).
Proof.
  induction l as [|x l IH]; [done|]. cbn [List.filter].
  destruct (f x) eqn:Hf, (g x) eqn:Hg; cbn [List.filter];
    rewrite ?Hf, ?Hg, IH; done.
Qed.

Lemma sorted_reverse_sorted_id {A : Type} (key : A -> Z) (l : list A) :
  StronglySorted (descending key) l -> sorted_reverse key l = l.
Proof.
  induction 1 as [|x l Hl IH Hx]; [done|]. cbn [sorted_reverse]. rewrite IH.
  destruct l as [|y l]; [done|]. cbn [insert_desc].
  apply Forall_cons in Hx as [Hxy _]. unfold descending in Hxy.
  by apply Z.leb_le in Hxy as ->.
Qed.

(** X4: the sort behind the candidate lists is stable: among the
    candidates, the locators with any one score stand in the order in
    which the owner stores them; and a list stored in descending order of
    score comes back unchanged but for the placeholders. *)
Theorem candidate_order_is_stable :
  (forall (a : Action) (u : Z),
     List.filter (fun l => uses l =? u) (sorted_locators a)
     = List.filter (fun l => uses l =? u) (List.filter Locator_bool (locators a))) /\
  (forall (s : Locators) (u : Z),
     List.filter (fun l => uses l =? u) (sorted_inclusions s)
     = List.filter (fun l => uses l =? u) (List.filter Locator_bool (inclusions s)) /\
     List.filter (fun l => uses l =? u) (sorted_exclusions s)
     = List.filter (fun l => uses l =? u) (List.filter Locator_bool (exclusions s))) /\
  (forall a : Action,
     StronglySorted (fun x y => uses y <= uses x) (locators a) ->
     sorted_locators a = List.filter Locator_bool (locators a)).
Proof.
  assert (Hst : forall (ls : list Locator) (u : Z),
             List.filter (fun l => uses l =? u)
               (List.filter Locator_bool (sorted_reverse uses ls))
             = List.filter (fun l => uses l =? u) (List.filter Locator_bool ls)).
  { intros ls u.
    rewrite filter_comm, sorted_reverse_filter_key. apply filter_comm. }
  split; [intros a u; apply Hst|].
  split; [intros s u; split; apply Hst|].
  intros a Hs. unfold sorted_locators. by rewrite sorted_reverse_sorted_id.
Qed.

Lemma candidate_order_is_stable_witness :
  sorted_locators
    (mkAction "click" "go"
       [mkLocator "id" "a" 0 7; mkLocator "" "" 0 3; mkLocator "css" "b" 0 3])
  = [mkLocator "id" "a" 0 7; mkLocator "css" "b" 0 3].
Proof.
  destruct candidate_order_is_stable as (_ & _ & Hsorted).
  apply (Hsorted (mkAction "click" "go"
           [mkLocator "id" "a" 0 7; mkLocator "" "" 0 3; mkLocator "css" "b" 0 3])).
  repeat constructor; cbn; lia.
Defined.

(** ** Exhausted dispatch *)

Lemma enumerate_from_lookup {A : Type} (i k : nat) (ls : list A) (x : A) :
  ls !! k = Some x -> In ((i + k)%nat, x) (enumerate_from i ls).
Proof.
  revert i k. induction ls as [|y ls IH]; intros i [|k] Hk; try done.
  - injection Hk as ->. left. f_equal. lia.
  - right. replace (i + S k)%nat with (S i + k)%nat by lia. by apply IH.
Qed.

Lemma sorted_refs_complete (ls : list Locator) (r : nat) (l : Locator) :
  ls !! r = Some l -> Locator_bool l = true -> In r (sorted_refs ls).
Proof.
  intros Hl Hb. unfold sorted_refs. apply in_map_iff. exists (r, l).
  split; [done|]. apply filter_In. split; [|done].
  apply (Permutation_in _ (Permutation_sym (sorted_reverse_Permutation _ _))).
  apply (enumerate_from_lookup 0 r ls l Hl).
Qed.

Lemma updated_at_sorted_refs (f : Locator -> Locator) (ls : list Locator) :
  updated_at f (sorted_refs ls) ls
  = map (fun l => if Locator_bool l then f l else l) ls.
Proof.
  apply list_eq. intros i.
  change (map ?g ?l) with (g <$> l). rewrite list_lookup_fmap.
  destruct (ls !! i) as [l|] eqn:Hl; cbn.
  - destruct (Locator_bool l) eqn:Hb.
    + apply updated_at_in; [apply sorted_refs_NoDup| |done].
      by apply (sorted_refs_complete ls i l).
    + rewrite updated_at_notin; [done|].
      intros (l' & Hl' & Hb')%sorted_refs_In. congruence.
  - rewrite updated_at_notin; [done|].
    intros (l' & Hl' & _)%sorted_refs_In. congruence.
Qed.

Lemma penalised_placeholders (ls : list Locator) :
  Forall (fun l => Locator_bool l = false) ls -> map penalised ls = ls.
Proof.
  induction 1 as [|l ls Hl _ IH]; [done|]. cbn [map].
  unfold penalised at 1. by rewrite Hl, IH.
Qed.

Section ExhaustionFacts.
Context `{Driver}.

Lemma trying_refs_all_fail (a : Action) (args : Args) (b : Browser)
    (refs : list nat) :
  forall ls : list Locator,
    NoDup refs ->
    Forall (fun r => exists l, ls !! r = Some l /\ Locator_bool l = true /\
                               fst (Locator_find b l) = None) refs ->
    trying_refs a args refs b ls
    = (true, b, updated_at (fun l => snd (Locator_score (-1) l)) refs ls).
Proof.
  induction refs as [|r refs IH]; intros ls Hnd Hall; [done|].
  apply NoDup_cons in Hnd as [Hr Hnd].
  apply Forall_cons in Hall as [(l & Hl & Hb & Hnone) Hall].
  cbn [trying_refs]. rewrite Hl, Hb.
  pose proof (find_unfound b l Hnone) as Hsame.
  destruct (Locator_find b l) as [el l1]. cbn [fst snd] in Hnone, Hsame.
  subst el l1. unfold updated_at. cbn [fold_left].
  rewrite (alter_as_insert _ _ _ _ Hl). apply IH; [done|].
  rewrite Forall_forall in Hall. apply Forall_forall. intros r' Hin.
  destruct (Hall r' Hin) as (l' & Hl' & Hrest). exists l'. split; [|done].
  rewrite list_lookup_insert_ne; [done|]. by intros ->.
Qed.

(** X5: when the verb is not the keystroke verb and none of the usable
    locators of an action resolves, [_trying_locators] reports failure,
    leaves the browser alone, puts every usable locator through
    [score(-1)] once and leaves the placeholders untouched; with no
    usable locator at all nothing changes. *)
Theorem dispatch_exhausted (args : Args) (b : Browser) (a : Action) :
  verb a <> Verb_TYPE ->
  Forall (fun l => fst (Locator_find b l) = None) (sorted_locators a) ->
  Action_trying_locators args b a
  = (true, b, set_locators (map penalised (locators a)) a) /\
  (Forall (fun l => Locator_bool l = false) (locators a) ->
   Action_trying_locators args b a = (true, b, a)).
Proof.
  intros Hverb Hnone.
  assert (Hall : Forall (fun r => exists l, locators a !! r = Some l /\
                                    Locator_bool l = true /\
                                    fst (Locator_find b l) = None)
                   (sorted_refs (locators a))).
  { pose proof (sorted_refs_candidates (locators a)) as Hrefs.
    pose proof (sorted_refs_In (locators a)) as Hin.
    unfold sorted_locators in Hnone. revert Hin.
    induction Hrefs as [|r l refs cands Hl _ IH]; intros Hin; [constructor|].
    apply Forall_cons in Hnone as [Hn Hnone]. constructor.
    - destruct (Hin r) as (l' & Hl' & Hb'); [by left|].
      exists l. split; [done|]. split; [congruence|done].
    - apply IH; [done|]. intros r' Hr'. apply Hin. by right. }
  assert (Hmain : Action_trying_locators args b a
                  = (true, b, set_locators (map penalised (locators a)) a)).
  { unfold Action_trying_locators. apply String.eqb_neq in Hverb. rewrite Hverb.
    rewrite (trying_refs_all_fail a args b _ _ (sorted_refs_NoDup _) Hall).
    by rewrite updated_at_sorted_refs. }
  split; [exact Hmain|].
  intros Hempty. rewrite Hmain. f_equal.
  rewrite (penalised_placeholders _ Hempty). by destruct a.
Qed.

End ExhaustionFacts.

Lemma dispatch_exhausted_witness :
  Action_trying_locators (H := demo_driver) tt demo_doc
    (mkAction "click" "go" [mkLocator "" "" 0 0; mkLocator "id" "nowhere" 0 0])
  = (true, demo_doc,
     mkAction "click" "go" [mkLocator "" "" 0 0; mkLocator "id" "nowhere" 0 (-1)]).
Proof.
  apply (dispatch_exhausted (H := demo_driver) tt demo_doc
           (mkAction "click" "go"
              [mkLocator "" "" 0 0; mkLocator "id" "nowhere" 0 0])).
  - discriminate.
  - repeat constructor.
Defined.

(** ** What one pass over the candidates may change *)

Section PassFacts.
Context `{Driver}.

Lemma trying_refs_elsewhere (a : Action) (args : Args) (refs : list nat) :
  forall (b : Browser) (ls : list Locator) (i : nat),
    ~ In i refs -> snd (trying_refs a args refs b ls) !! i = ls !! i.
Proof.
  induction refs as [|r refs IH]; intros b ls i Hi; [done|].
  assert (Hne : r <> i) by (intros ->; apply Hi; by left).
  assert (Hrest : ~ In i refs) by (intros Hin; apply Hi; by right).
  cbn [trying_refs]. destruct (ls !! r) as [l|]; [|by apply IH].
  destruct (Locator_bool l).
  - destruct (Locator_find b l) as [[e|] l1].
    + destruct (Action_perform_action a _ args b) as [[|] b1].
      * cbn [snd]. by apply list_lookup_insert_ne.
      * rewrite IH; [|done]. by apply list_lookup_insert_ne.
    + rewrite IH; [|done]. by apply list_lookup_insert_ne.
  - rewrite IH; [|done]. by apply list_lookup_insert_ne.
Qed.

Lemma scored_once_step (b : Browser) (l : Locator) (v : Z) :
  v = 1 \/ v = -1 ->
  scored_once l (snd (Locator_score v (snd (Locator_find b l)))).
Proof.
  intros Hv. destruct (find_frame b l) as (Hm & Hv' & Hu).
  destruct (Locator_score_frame v (snd (Locator_find b l))) as (Hm2 & Hv2 & _).
  unfold scored_once. rewrite Hm2, Hv2, Locator_score_uses, Hu.
  split; [done|]. split; [done|].
  destruct Hv as [-> | ->]; cbn [Z.ltb Z.compare]; [right; right|right; left]; lia.
Qed.

Lemma scored_once_plain (l : Locator) :
  scored_once l (snd (Locator_score (-1) l)).
Proof.
  destruct (Locator_score_frame (-1) l) as (Hm2 & Hv2 & _).
  unfold scored_once. rewrite Hm2, Hv2, Locator_score_uses.
  cbn [Z.ltb Z.compare]. split; [done|]. split; [done|]. right; left. lia.
Qed.

Lemma scored_once_refl (l : Locator) : scored_once l l.
Proof. unfold scored_once. auto. Qed.

Lemma trying_refs_scored_once (a : Action) (args : Args) (refs : list nat) :
  forall (b : Browser) (ls : list Locator),
    NoDup refs ->
    forall i, option_Forall2 scored_once
                (ls !! i) (snd (trying_refs a args refs b ls) !! i).
Proof.
  induction refs as [|r refs IH]; intros b ls Hnd i.
  { cbn. destruct (ls !! i); constructor. apply scored_once_refl. }
  apply NoDup_cons in Hnd as [Hr Hnd]. rewrite list_elem_of_In in Hr.
  cbn [trying_refs]. destruct (ls !! r) as [l|] eqn:Hl; [|by apply IH].
  assert (Hstep : forall x rest b',
             scored_once l x ->
             rest = snd (trying_refs a args refs b' (<[r:=x]> ls)) \/
             rest = <[r:=x]> ls ->
             option_Forall2 scored_once (ls !! i) (rest !! i)).
  { intros x rest b' Hx Hrest. destruct (decide (i = r)) as [->|Hne].
    - rewrite Hl.
      assert (Hat : rest !! r = Some x).
      { destruct Hrest as [-> | ->].
        - rewrite trying_refs_elsewhere; [|done].
          apply list_lookup_insert_eq. by eapply lookup_lt_Some.
        - apply list_lookup_insert_eq. by eapply lookup_lt_Some. }
      rewrite Hat. by constructor.
    - destruct Hrest as [-> | ->].
      + rewrite <- (list_lookup_insert_ne ls r i x) by done. by apply IH.
      + rewrite list_lookup_insert_ne by done.
        destruct (ls !! i); constructor. apply scored_once_refl. }
  destruct (Locator_bool l).
  - pose proof (scored_once_step b l 1 (or_introl eq_refl)) as Hup.
    pose proof (scored_once_step b l (-1) (or_intror eq_refl)) as Hdown.
    destruct (Locator_find b l) as [[e|] l1]; cbn [snd] in Hup, Hdown.
    + destruct (Action_perform_action a _ args b) as [[|] b1].
      * cbn [snd]. eapply (Hstep _ _ b); [exact Hup|by right].
      * eapply Hstep; [exact Hdown|by left].
    + eapply Hstep; [exact Hdown|by left].
  - eapply Hstep; [apply scored_once_plain|by left].
Qed.

(** X6: a pass of [_trying_locators] never adds, drops, reorders or
    relabels a locator and keeps the verb and the name; every locator
    keeps its score or has gone through exactly one [score(-1)] or one
    [score(+1)]; and for the keystroke verb the pass reports success and
    leaves the action as it is, whatever sending the key does. *)
Theorem dispatch_pass_frame (args : Args) (b : Browser) (a : Action) :
  let failed := fst (fst (Action_trying_locators args b a)) in
  let a' := snd (Action_trying_locators args b a) in
  verb a' = verb a /\ name a' = name a /\
  Forall2 scored_once (locators a) (locators a') /\
  (verb a = Verb_TYPE -> failed = false /\ a' = a).
Proof.
  cbn zeta. destruct (Action_trying_locators_frame args b a) as (Hv & Hn & _).
  split; [exact Hv|]. split; [exact Hn|]. split.
  - unfold Action_trying_locators.
    destruct (String.eqb (verb a) Verb_TYPE).
    + destruct (Action_perform_action a (send_keys (name a)) args b).
      cbn [snd]. apply Forall2_lookup. intros i.
      destruct (locators a !! i); constructor. apply scored_once_refl.
    + pose proof (trying_refs_scored_once a args (sorted_refs (locators a)) b
                    (locators a) (sorted_refs_NoDup _)) as Hall.
      destruct (trying_refs a args _ b (locators a)) as [[failed b'] ls].
      cbn [snd locators set_locators] in *. by apply Forall2_lookup.
  - intros Htype%String.eqb_eq. unfold Action_trying_locators. rewrite Htype.
    by destruct (Action_perform_action a (send_keys (name a)) args b).
Qed.

End PassFacts.

Lemma dispatch_pass_frame_witness :
  snd (Action_trying_locators (H := demo_driver) tt demo_doc
         (mkAction "type" "enter" [mkLocator "" "" 0 0]))
  = mkAction "type" "enter" [mkLocator "" "" 0 0].
Proof.
  apply (dispatch_pass_frame (H := demo_driver) tt demo_doc
           (mkAction "type" "enter" [mkLocator "" "" 0 0])).
  reflexivity.
Defined.

(** ** The repair loop ends *)

Section RepairLoopFacts.
Context `{Driver}.

(** X7: the dispatch loop returns as soon as the operator gives an
    answer with an empty mode: if the script holds such an answer after
    [pre], the loop returns, having read at most the answers of [pre]
    and that one; and a first pass that succeeds returns without reading
    any answer. *)
Theorem repair_loop_stops_at_decline (args : Args)
    (pre post : list (string * string)) (m v : string) :
  str_bool m = false ->
  forall (b : Browser) (a : Action),
    (exists r b' a' k,
       repair_loop (pre ++ (m, v) :: post) args b a
       = Some (r, b', a', drop k (pre ++ (m, v) :: post)) /\
       (k <= S (length pre))%nat) /\
    (fst (fst (Action_trying_locators args b a)) = false ->
     repair_loop (pre ++ (m, v) :: post) args b a
     = Some (false, snd (fst (Action_trying_locators args b a)),
             snd (Action_trying_locators args b a), pre ++ (m, v) :: post)).
Proof.
  intros Hm. induction pre as [|[m' v'] pre IH]; intros b a.
  - cbn [app repair_loop length].
    destruct (Action_trying_locators args b a) as [[[|] b1] a1]; cbn [fst snd].
    + rewrite Hm. split; [|done].
      exists true, b1, a1, 1%nat. split; [done|lia].
    + split; [|done].
      exists false, b1, a1, 0%nat. split; [done|lia].
  - cbn [app repair_loop length].
    destruct (Action_trying_locators args b a) as [[[|] b1] a1]; cbn [fst snd].
    + split; [|done]. destruct (str_bool m').
      * destruct (IH b1 (set_locators (locators a1 ++ [Locator_new m' v']) a1))
          as [(r & b' & a' & k & Hloop & Hk) _].
        exists r, b', a', (S k). split; [exact Hloop|lia].
      * exists true, b1, a1, 1%nat. split; [done|lia].
    + split; [|done].
      exists false, b1, a1, 0%nat. split; [done|lia].
Qed.

End RepairLoopFacts.

Lemma repair_loop_stops_at_decline_witness :
  exists r b' a' k,
    repair_loop (H := demo_driver) [("id", "nowhere"); ("", ""); ("id", "email")]
      tt [] demo_fill
    = Some (r, b', a', drop k [("id", "nowhere"); ("", ""); ("id", "email")]) /\
    (k <= 2)%nat.
Proof.
  apply (repair_loop_stops_at_decline (H := demo_driver) tt
           [("id", "nowhere")] [("id", "email")] "" "" eq_refl
           [] demo_fill).
Defined.

(** ** When a page is active *)

Lemma forallb_ext_in {A : Type} (f g : A -> bool) (l : list A) :
  (forall x, In x l -> f x = g x) -> forallb f l = forallb g l.
Proof.
  induction l as [|x l IH]; intros Hfg; [done|]. cbn.
  rewrite (Hfg x), IH; [done| |by left]. intros y Hy. apply Hfg. by right.
Qed.

Lemma existsb_ext_in {A : Type} (f g : A -> bool) (l : list A) :
  (forall x, In x l -> f x = g x) -> existsb f l = existsb g l.
Proof.
  induction l as [|x l IH]; intros Hfg; [done|]. cbn.
  rewrite (Hfg x), IH; [done| |by left]. intros y Hy. apply Hfg. by right.
Qed.

Lemma uses_insert (ls : list Locator) (r : nat) (l x : Locator) :
  ls !! r = Some l -> uses x = uses l ->
  map uses (<[r := x]> ls) = map uses ls.
Proof.
  intros Hl Hu. change (map ?f ?l) with (f <$> l). rewrite list_fmap_insert.
  apply list_insert_id. rewrite list_lookup_fmap, Hl. cbn. by rewrite Hu.
Qed.

Section ActiveFacts.
Context `{Driver}.

Lemma check_inclusions_answer (b : Browser) (refs : list nat) :
  forall (p : Page) (saved : list Page),
    NoDup refs ->
    fst (fst (check_inclusions b refs p saved))
    = forallb (resolves true b (inclusions (page_locators p))) refs.
Proof.
  induction refs as [|r refs IH]; intros p saved Hnd; [done|].
  apply NoDup_cons in Hnd as [Hr Hnd]. rewrite list_elem_of_In in Hr.
  cbn [check_inclusions forallb]. unfold resolves at 1, found.
  destruct (inclusions (page_locators p) !! r) as [l|] eqn:Hl; [|by apply IH].
  destruct (Locator_find b l) as [[e|] l1]; [|done]. cbn [fst andb].
  destruct (Locator_score 1 l1) as [moved l2]. rewrite IH; [|done].
  apply forallb_ext_in. intros r' Hin. unfold resolves.
  cbn [inclusions page_locators set_inclusions set_page_locators].
  rewrite list_lookup_insert_ne; [done|]. by intros ->.
Qed.

Lemma check_exclusions_answer (b : Browser) (refs : list nat) :
  forall (p : Page) (saved : list Page),
    NoDup refs ->
    fst (fst (check_exclusions b refs p saved))
    = existsb (resolves false b (exclusions (page_locators p))) refs.
Proof.
  induction refs as [|r refs IH]; intros p saved Hnd; [done|].
  apply NoDup_cons in Hnd as [Hr Hnd]. rewrite list_elem_of_In in Hr.
  cbn [check_exclusions existsb]. unfold resolves at 1, found.
  destruct (exclusions (page_locators p) !! r) as [l|] eqn:Hl; [|by apply IH].
  destruct (Locator_find b l) as [[e|] l1].
  - by destruct (Locator_score 1 l1) as [moved l2].
  - cbn [fst orb]. rewrite IH; [|done].
    apply existsb_ext_in. intros r' Hin. unfold resolves.
    cbn [exclusions page_locators set_exclusions set_page_locators].
    rewrite list_lookup_insert_ne; [done|]. by intros ->.
Qed.

Lemma forallb_resolves (b : Browser) (ls : list Locator) :
  forallb (resolves true b ls) (sorted_refs ls)
  = forallb (found b) (List.filter Locator_bool (sorted_reverse uses ls)).
Proof.
  induction (sorted_refs_candidates ls) as [|r l refs cands Hl _ IH]; [done|].
  cbn [forallb]. rewrite IH. unfold resolves at 1. by rewrite Hl.
Qed.

Lemma existsb_resolves (b : Browser) (ls : list Locator) :
  existsb (resolves false b ls) (sorted_refs ls)
  = existsb (found b) (List.filter Locator_bool (sorted_reverse uses ls)).
Proof.
  induction (sorted_refs_candidates ls) as [|r l refs cands Hl _ IH]; [done|].
  cbn [existsb]. rewrite IH. unfold resolves at 1. by rewrite Hl.
Qed.

(** X8: a page is reported active exactly when its URL matches the
    browser's, every usable inclusion locator resolves and no usable
    exclusion locator does. *)
Theorem active_iff (b : Browser) (p : Page) :
  fst (fst (Page_active b p))
  = URL_eq (domain p) (path p) (browser_url b)
    && forallb (found b) (sorted_inclusions (page_locators p))
    && negb (existsb (found b) (sorted_exclusions (page_locators p))).
Proof.
  unfold Page_active, sorted_inclusions, sorted_exclusions.
  destruct (URL_eq (domain p) (path p) (browser_url b)); [|done].
  cbn [negb andb].
  pose proof (check_inclusions_answer b _ p [] (sorted_refs_NoDup
                (inclusions (page_locators p)))) as Hin.
  pose proof (check_inclusions_frame b
                (sorted_refs (inclusions (page_locators p))) p []) as Hfr.
  destruct (check_inclusions b _ p []) as [[ok p1] saved1].
  cbn [fst snd] in Hin, Hfr. destruct Hfr as (_ & _ & _ & Hexcl & _).
  rewrite forallb_resolves in Hin.
  rewrite <- Hin. destruct ok; [|done]. cbn [andb].
  pose proof (check_exclusions_answer b _ p1 saved1 (sorted_refs_NoDup
                (exclusions (page_locators p1)))) as Hex.
  destruct (check_exclusions b _ p1 saved1) as [[fnd p2] saved2].
  cbn [fst] in Hex |- *. by rewrite Hex, Hexcl, existsb_resolves.
Qed.

End ActiveFacts.

(** ** What identification changes and what it saves *)

Lemma Locator_score_unmoved (v : Z) (l l' : Locator) :
  Locator_score v l = (false, l') -> uses l' = uses l.
Proof.
  intros Hs. pose proof (Locator_score_flag v l) as Hflag.
  rewrite Hs in Hflag. cbn [fst snd] in Hflag.
  symmetry in Hflag. by apply negb_false_iff, Z.eqb_eq in Hflag.
Qed.

Section SavedFacts.
Context `{Driver}.

Lemma check_inclusions_labels (b : Browser) (refs : list nat) :
  forall (p : Page) (saved : list Page),
    labels (inclusions (page_locators (snd (fst (check_inclusions b refs p saved)))))
    = labels (inclusions (page_locators p)).
Proof.
  induction refs as [|r refs IH]; intros p saved; [done|].
  cbn [check_inclusions].
  destruct (inclusions (page_locators p) !! r) as [l|] eqn:Hl; [|by apply IH].
  destruct (find_frame b l) as (Hfm & Hfv & _).
  destruct (Locator_find b l) as [[e|] l1]; cbn [snd] in Hfm, Hfv.
  - destruct (Locator_score_frame 1 l1) as (Hsm & Hsv & _).
    destruct (Locator_score 1 l1) as [moved l2]. cbn [snd] in Hsm, Hsv.
    rewrite IH. apply (labels_insert _ _ l); congruence.
  - cbn [fst snd]. apply (labels_insert _ _ l); congruence.
Qed.

Lemma check_exclusions_labels (b : Browser) (refs : list nat) :
  forall (p : Page) (saved : list Page),
    labels (exclusions (page_locators (snd (fst (check_exclusions b refs p saved)))))
    = labels (exclusions (page_locators p)).
Proof.
  induction refs as [|r refs IH]; intros p saved; [done|].
  cbn [check_exclusions].
  destruct (exclusions (page_locators p) !! r) as [l|] eqn:Hl; [|by apply IH].
  destruct (find_frame b l) as (Hfm & Hfv & _).
  destruct (Locator_find b l) as [[e|] l1]; cbn [snd] in Hfm, Hfv.
  - destruct (Locator_score_frame 1 l1) as (Hsm & Hsv & _).
    destruct (Locator_score 1 l1) as [moved l2]. cbn [snd] in Hsm, Hsv.
    cbn [fst snd]. apply (labels_insert _ _ l); congruence.
  - rewrite IH. apply (labels_insert _ _ l); congruence.
Qed.

Lemma check_inclusions_saved (b : Browser) (p0 : Page) (refs : list nat) :
  forall (p : Page) (saved : list Page),
    page_scores (List.last saved p0) = page_scores p ->
    page_scores (List.last (snd (check_inclusions b refs p saved)) p0)
    = page_scores (snd (fst (check_inclusions b refs p saved))).
Proof.
  induction refs as [|r refs IH]; intros p saved Hinv; [done|].
  cbn [check_inclusions].
  destruct (inclusions (page_locators p) !! r) as [l|] eqn:Hl; [|by apply IH].
  destruct (find_frame b l) as (_ & _ & Hfu).
  destruct (Locator_find b l) as [[e|] l1]; cbn [snd] in Hfu.
  - destruct (Locator_score 1 l1) as [moved l2] eqn:Hscore.
    apply IH. destruct moved; [by rewrite last_last|].
    rewrite Hinv. unfold page_scores. f_equal.
    symmetry. apply (uses_insert _ _ l); [done|].
    apply Locator_score_unmoved in Hscore. congruence.
  - cbn [fst snd]. rewrite Hinv. unfold page_scores. f_equal.
    symmetry. by apply (uses_insert _ _ l).
Qed.

Lemma check_exclusions_saved (b : Browser) (p0 : Page) (refs : list nat) :
  forall (p : Page) (saved : list Page),
    page_scores (List.last saved p0) = page_scores p ->
    page_scores (List.last (snd (check_exclusions b refs p saved)) p0)
    = page_scores (snd (fst (check_exclusions b refs p saved))).
Proof.
  induction refs as [|r refs IH]; intros p saved Hinv; [done|].
  cbn [check_exclusions].
  destruct (exclusions (page_locators p) !! r) as [l|] eqn:Hl; [|by apply IH].
  destruct (find_frame b l) as (_ & _ & Hfu).
  destruct (Locator_find b l) as [[e|] l1]; cbn [snd] in Hfu.
  - destruct (Locator_score 1 l1) as [moved l2] eqn:Hscore. cbn [fst snd].
    destruct moved; [by rewrite last_last|].
    rewrite Hinv. unfold page_scores. f_equal.
    symmetry. apply (uses_insert _ _ l); [done|].
    apply Locator_score_unmoved in Hscore. congruence.
  - apply IH. rewrite Hinv. unfold page_scores. f_equal.
    symmetry. by apply (uses_insert _ _ l).
Qed.

(** X9: identification changes nothing but the [index] and [uses] of
    the page's own locators: key, actions and the selectors of the
    inclusion and exclusion locators, in order, are as before; and when
    the URL does not match, the page is untouched and nothing is saved. *)
Theorem identification_frame (b : Browser) (p : Page) :
  let p' := snd (fst (Page_active b p)) in
  domain p' = domain p /\ path p' = path p /\ variant p' = variant p /\
  actions p' = actions p /\
  labels (inclusions (page_locators p')) = labels (inclusions (page_locators p)) /\
  labels (exclusions (page_locators p')) = labels (exclusions (page_locators p)) /\
  (URL_eq (domain p) (path p) (browser_url b) = false ->
   Page_active b p = (false, p, [])).
Proof.
  cbn zeta. unfold Page_active.
  destruct (URL_eq (domain p) (path p) (browser_url b)); [|done]. cbn [negb].
  pose proof (check_inclusions_frame b
                (sorted_refs (inclusions (page_locators p))) p []) as Hi.
  pose proof (check_inclusions_labels b
                (sorted_refs (inclusions (page_locators p))) p []) as Hil.
  destruct (check_inclusions b _ p []) as [[ok p1] saved1].
  cbn [fst snd] in Hi, Hil. destruct Hi as (Hd & Hp & Hv & He & Ha).
  destruct ok;
    [|cbn [fst snd]; repeat split; try congruence; intros [=]].
  pose proof (check_exclusions_frame b
                (sorted_refs (exclusions (page_locators p1))) p1 saved1) as Hx.
  pose proof (check_exclusions_labels b
                (sorted_refs (exclusions (page_locators p1))) p1 saved1) as Hxl.
  destruct (check_exclusions b _ p1 saved1) as [[fnd p2] saved2].
  cbn [fst snd] in Hx, Hxl |- *. destruct Hx as (Hd2 & Hp2 & Hv2 & Hi2 & Ha2).
  repeat split; try congruence; intros [=].
Qed.

(** X10: every change of a score made by identification is saved: the
    scores in the last snapshot handed to [datafile.save()] are the
    scores the page ends with, and when nothing is saved the scores are
    those it started with. *)
Theorem identification_saves_scores (b : Browser) (p : Page) :
  let p' := snd (fst (Page_active b p)) in
  let saved := snd (Page_active b p) in
  page_scores (List.last saved p) = page_scores p' /\
  (saved = [] -> page_scores p' = page_scores p).
Proof.
  cbn zeta.
  assert (Hmain : page_scores (List.last (snd (Page_active b p)) p)
                  = page_scores (snd (fst (Page_active b p)))).
  { unfold Page_active.
    destruct (URL_eq (domain p) (path p) (browser_url b)); [|done]. cbn [negb].
    pose proof (check_inclusions_saved b p
                  (sorted_refs (inclusions (page_locators p))) p [] eq_refl) as Hs.
    destruct (check_inclusions b _ p []) as [[ok p1] saved1].
    cbn [fst snd] in Hs. destruct ok; [|done].
    pose proof (check_exclusions_saved b p
                  (sorted_refs (exclusions (page_locators p1))) p1 saved1 Hs) as Hs2.
    by destruct (check_exclusions b _ p1 saved1) as [[fnd p2] saved2]. }
  split; [exact Hmain|]. intros Hnil. by rewrite Hnil in Hmain.
Qed.

End SavedFacts.

(** ** Cleaning twice, and what a clean accounts for *)

Lemma filter_negb_none {A : Type} (f : A -> bool) (l : list A) :
  List.filter f (List.filter (fun x => negb (f x)) l) = [].
Proof.
  induction l as [|x l IH]; [done|]. cbn [List.filter].
  destruct (f x) eqn:Hf; cbn [negb List.filter]; [done|]. by rewrite Hf.
Qed.

Lemma filter_negb_idem {A : Type} (f : A -> bool) (l : list A) :
  List.filter (fun x => negb (f x)) (List.filter (fun x => negb (f x)) l)
  = List.filter (fun x => negb (f x)) l.
Proof.
  apply filter_filter_negb. intros x Hx. by apply negb_true_iff in Hx.
Qed.

Lemma set_locators_id (a : Action) : set_locators (locators a) a = a.
Proof. by destruct a. Qed.

Lemma Action_clean_cleaned (force : bool) (a : Action) :
  Action_clean force a = Some (Action_cleaned force a).
Proof. apply Action_clean_eq. Qed.

Lemma Action_cleaned_length (force : bool) (a : Action) :
  length (locators a)
  = (length (locators (snd (Action_cleaned force a)))
     + fst (Action_cleaned force a))%nat.
Proof.
  unfold Action_cleaned. destruct (force || existsb confirmed (locators a));
    cbn [fst snd locators set_locators]; [|lia].
  apply length_filter_split.
Qed.

Lemma Action_cleaned_zero (force : bool) (a : Action) :
  fst (Action_cleaned force a) = 0%nat -> snd (Action_cleaned force a) = a.
Proof.
  unfold Action_cleaned. destruct (force || existsb confirmed (locators a));
    cbn [fst snd]; [|done].
  intros Hlen%length_zero_iff_nil.
  rewrite (filter_none_negb _ _ Hlen). apply set_locators_id.
Qed.

Lemma Action_cleaned_again (force : bool) (a : Action) :
  Action_cleaned force (snd (Action_cleaned force a))
  = (0%nat, snd (Action_cleaned force a)).
Proof.
  unfold Action_cleaned at 2 3.
  destruct (force || existsb confirmed (locators a)) eqn:Ht; cbn [snd].
  - unfold Action_cleaned. cbn [locators set_locators verb name].
    match goal with |- context [if ?c then _ else _] => destruct c end; [|done].
    by rewrite filter_negb_none, filter_negb_idem.
  - unfold Action_cleaned. by rewrite Ht.
Qed.

(** X11: [Action.clean] and [Locators.clean] are idempotent: cleaning
    again with the same [force] removes nothing and returns 0. *)
Theorem clean_is_idempotent (force : bool) :
  (forall (a a' : Action) (n : nat),
     Action_clean force a = Some (n, a') ->
     Action_clean force a' = Some (0%nat, a')) /\
  (forall (s s' : Locators) (n : nat),
     Locators_clean force s = Some (n, s') ->
     Locators_clean force s' = Some (0%nat, s')).
Proof.
  split.
  - intros a a' n. rewrite !Action_clean_cleaned. intros [= Hc].
    assert (Ha : a' = snd (Action_cleaned force a)) by by rewrite Hc.
    rewrite Ha. f_equal. apply Action_cleaned_again.
  - intros s s' n. rewrite !Locators_clean_eq.
    destruct (force || existsb confirmed (inclusions s)
                    || existsb confirmed (exclusions s)) eqn:Ht.
    + intros [= _ <-]. cbn [inclusions exclusions].
      match goal with |- context [if ?c then _ else _] => destruct c end; [|done].
      by rewrite !filter_negb_none, !filter_negb_idem.
    + intros [= _ <-]. by rewrite Ht.
Qed.

Lemma clean_is_idempotent_witness :
  Action_clean false
    (mkAction "click" "go" [mkLocator "id" "go" 0 99])
  = Some (0%nat, mkAction "click" "go" [mkLocator "id" "go" 0 99]).
Proof.
  destruct (clean_is_idempotent false) as [Hact _].
  apply (Hact (mkAction "click" "go"
                 [mkLocator "id" "go" 0 99; mkLocator "css" "a" 0 0])
              _ 1%nat).
  reflexivity.
Defined.

Lemma clean_actions_cleaned (force : bool) (acts : list Action) :
  clean_actions force acts
  = Some (list_sum (map (fun a => fst (Action_cleaned force a)) acts),
          map (fun a => snd (Action_cleaned force a)) acts).
Proof.
  induction acts as [|a acts IH]; [done|].
  cbn [clean_actions]. rewrite Action_clean_cleaned, IH.
  cbn [mbind option_bind map].
  destruct (Action_cleaned force a) eqn:Hc. reflexivity.
Qed.

Lemma list_sum_cons (x : nat) (l : list nat) :
  list_sum (x :: l) = (x + list_sum l)%nat.
Proof. reflexivity. Qed.

Lemma clean_actions_length (force : bool) (acts : list Action) :
  list_sum (map (fun a => length (locators a)) acts)
  = (list_sum (map (fun a => length (locators a))
                 (map (fun a => snd (Action_cleaned force a)) acts))
     + list_sum (map (fun a => fst (Action_cleaned force a)) acts))%nat.
Proof.
  induction acts as [|a acts IH]; [done|]. cbn [map].
  rewrite !list_sum_cons, IH, (Action_cleaned_length force a). lia.
Qed.

Lemma clean_actions_zero (force : bool) (acts : list Action) :
  list_sum (map (fun a => fst (Action_cleaned force a)) acts) = 0%nat ->
  map (fun a => snd (Action_cleaned force a)) acts = acts.
Proof.
  induction acts as [|a acts IH]; [done|]. cbn [map].
  rewrite list_sum_cons. intros Hsum.
  rewrite (Action_cleaned_zero force a), IH; [done|lia|lia].
Qed.

Lemma set_fields_id (p : Page) :
  set_actions (actions p) (set_page_locators (page_locators p) p) = p.
Proof. by destruct p. Qed.

(** X12: an unforced [Page.clean] returns, keeps every action, and the
    count it returns is exactly the number of locators the page has
    lost; it saves the page once when that count is not zero, and when
    the count is zero the page is as before and nothing is saved. *)
Theorem unforced_clean_accounts (p : Page) :
  exists n p',
    Page_clean false p
    = Some (n, p', if Nat.eqb n 0 then [] else [p']) /\
    total_locators p = (total_locators p' + n)%nat /\
    length (actions p') = length (actions p) /\
    (n = 0%nat -> p' = p).
Proof.
  unfold Page_clean. rewrite Locators_clean_eq. cbn [mbind option_bind].
  rewrite andb_false_r. cbn [mbind option_bind].
  set (acts' := map (fun a => snd (Action_cleaned false a)) (actions p)).
  set (m := list_sum (map (fun a => fst (Action_cleaned false a)) (actions p))).
  pose proof (clean_actions_length false (actions p)) as Hlen.
  pose proof (clean_actions_zero false (actions p)) as Hzero.
  fold acts' m in Hlen, Hzero.
  destruct (false || existsb confirmed (inclusions (page_locators p))
                  || existsb confirmed (exclusions (page_locators p))).
  - rewrite clean_actions_cleaned. fold acts' m. cbn [mbind option_bind].
    match goal with |- context [Some (?n, ?q, _)] => exists n, q end.
    split; [rewrite orb_false_r; by destruct (Nat.eqb _ 0)|].
    split; [|split].
    + unfold total_locators.
      cbn [inclusions exclusions page_locators actions set_actions set_page_locators].
      rewrite (length_filter_split unused (inclusions (page_locators p))) at 1.
      rewrite (length_filter_split unused (exclusions (page_locators p))) at 1.
      lia.
    + cbn [actions set_actions]. subst acts'. by rewrite length_map.
    + intros Hn.
      assert (Hi : List.filter unused (inclusions (page_locators p)) = [])
        by (apply length_zero_iff_nil; lia).
      assert (He : List.filter unused (exclusions (page_locators p)) = [])
        by (apply length_zero_iff_nil; lia).
      rewrite (filter_none_negb _ _ Hi), (filter_none_negb _ _ He).
      rewrite Hzero by lia. by destruct p as [d pa v [i e] a].
  - rewrite clean_actions_cleaned. fold acts' m. cbn [mbind option_bind].
    match goal with |- context [Some (?n, ?q, _)] => exists n, q end.
    split; [rewrite orb_false_r; by destruct (Nat.eqb _ 0)|].
    split; [|split].
    + unfold total_locators.
      cbn [inclusions exclusions page_locators actions set_actions set_page_locators].
      lia.
    + cbn [actions set_actions]. subst acts'. by rewrite length_map.
    + intros Hn. rewrite Hzero by lia. apply set_fields_id.
Qed.

Lemma Page_clean_forced (p : Page) :
  Page_clean true p
  = Some ((length (List.filter unused (inclusions (page_locators p)))
           + length (List.filter unused (exclusions (page_locators p)))
           + list_sum (map (fun a => fst (Action_cleaned true a))
                         (List.filter (fun a => negb (unused_action a)) (actions p))))%nat,
          set_actions
            (map (fun a => snd (Action_cleaned true a))
               (List.filter (fun a => negb (unused_action a)) (actions p)))
            (set_page_locators
               (mkLocators
                  (List.filter (fun l => negb (unused l)) (inclusions (page_locators p)))
                  (List.filter (fun l => negb (unused l)) (exclusions (page_locators p))))
               p),
          [set_actions
            (map (fun a => snd (Action_cleaned true a))
               (List.filter (fun a => negb (unused_action a)) (actions p)))
            (set_page_locators
               (mkLocators
                  (List.filter (fun l => negb (unused l)) (inclusions (page_locators p)))
                  (List.filter (fun l => negb (unused l)) (exclusions (page_locators p))))
               p)]).
Proof.
  unfold Page_clean. rewrite Locators_clean_eq. cbn [orb mbind option_bind].
  fold unused. change (fun a => forallb unused (locators a)) with unused_action.
  rewrite andb_true_r.
  destruct (List.filter unused_action (actions p)) as [|u us] eqn:Hu.
  - rewrite (filter_none_negb _ _ Hu).
    cbn [length Nat.eqb negb mbind option_bind].
    rewrite clean_actions_cleaned. cbn [mbind option_bind].
    by rewrite orb_true_r.
  - rewrite <- Hu, remove_unused_actions. rewrite Hu.
    cbn [length Nat.eqb negb mbind option_bind].
    rewrite clean_actions_cleaned. cbn [mbind option_bind].
    by rewrite orb_true_r.
Qed.

Lemma filter_unused_positive (ls : list Locator) :
  Forall (fun l => 0 < uses l) ls -> List.filter unused ls = [].
Proof.
  induction 1 as [|l ls Hl _ IH]; [done|]. cbn [List.filter]. unfold unused at 1.
  by destruct (Z.leb_spec (uses l) 0); [lia|].
Qed.

Lemma filter_keeps_positive (ls : list Locator) :
  Forall (fun l => 0 < uses l) (List.filter (fun l => negb (unused l)) ls).
Proof.
  apply Forall_forall. intros l Hl%list_elem_of_In.
  apply filter_In in Hl as [_ Hl]. unfold unused in Hl.
  apply negb_true_iff, Z.leb_gt in Hl. lia.
Qed.

Lemma useful_action_cleaned (a : Action) :
  unused_action a = false ->
  locators (snd (Action_cleaned true a)) <> [] /\
  Forall (fun l => 0 < uses l) (locators (snd (Action_cleaned true a))) /\
  unused_action (snd (Action_cleaned true a)) = false.
Proof.
  unfold unused_action, Action_cleaned. cbn [orb snd locators set_locators].
  intros Hu. split; [|split; [apply filter_keeps_positive|]].
  - induction (locators a) as [|l ls IH]; [done|]. cbn in Hu |- *.
    destruct (unused l); cbn [negb]; [by apply IH|done].
  - induction (locators a) as [|l ls IH]; [done|]. cbn in Hu |- *.
    destruct (unused l) eqn:Hl; cbn [negb]; [by apply IH|].
    cbn. by rewrite Hl.
Qed.

Lemma Page_clean_settled (q : Page) :
  Forall (fun l => 0 < uses l) (inclusions (page_locators q)) ->
  Forall (fun l => 0 < uses l) (exclusions (page_locators q)) ->
  Forall (fun a => unused_action a = false /\
                   Forall (fun l => 0 < uses l) (locators a)) (actions q) ->
  Page_clean true q = Some (0%nat, q, [q]).
Proof.
  intros Hi He Ha. rewrite Page_clean_forced.
  rewrite (filter_unused_positive _ Hi), (filter_unused_positive _ He).
  rewrite (filter_none_negb _ _ (filter_unused_positive _ Hi)).
  rewrite (filter_none_negb _ _ (filter_unused_positive _ He)).
  assert (Hkeep : List.filter (fun a => negb (unused_action a)) (actions q)
                  = actions q
                  /\ list_sum (map (fun a => fst (Action_cleaned true a)) (actions q))
                     = 0%nat).
  { clear Hi He. induction Ha as [|a acts [Hu Hpos] _ [IH1 IH2]]; [done|].
    cbn [List.filter map]. rewrite Hu, IH1, list_sum_cons, IH2.
    unfold Action_cleaned. cbn [orb fst negb].
    by rewrite (filter_unused_positive _ Hpos). }
  destruct Hkeep as [Hkeep Hsum].
  rewrite Hkeep, Hsum, (clean_actions_zero true _ Hsum). cbn [length Nat.add].
  by destruct q as [d pa v [i e] a].
Qed.

(** X13: a forced [Page.clean] returns and saves the page; afterwards
    every locator the page holds has a positive score and every action
    left has at least one locator; and a second forced clean removes
    nothing and returns 0. *)
Theorem forced_clean_settles (p : Page) :
  exists n p',
    Page_clean true p = Some (n, p', [p']) /\
    Forall (fun l => 0 < uses l) (inclusions (page_locators p')) /\
    Forall (fun l => 0 < uses l) (exclusions (page_locators p')) /\
    Forall (fun a => locators a <> [] /\ Forall (fun l => 0 < uses l) (locators a))
      (actions p') /\
    Page_clean true p' = Some (0%nat, p', [p']).
Proof.
  eexists _, _. split; [apply Page_clean_forced|].
  cbn [inclusions exclusions page_locators actions set_actions set_page_locators].
  assert (Hacts : Forall (fun a => locators a <> [] /\
                                   Forall (fun l => 0 < uses l) (locators a) /\
                                   unused_action a = false)
                    (map (fun a => snd (Action_cleaned true a))
                       (List.filter (fun a => negb (unused_action a)) (actions p)))).
  { apply Forall_forall. intros a' Ha'%list_elem_of_In.
    apply in_map_iff in Ha' as (a & <- & Ha). apply filter_In in Ha as [_ Ha].
    apply negb_true_iff in Ha. by apply useful_action_cleaned. }
  split; [apply filter_keeps_positive|]. split; [apply filter_keeps_positive|].
  split.
  - eapply Forall_impl; [exact Hacts|]. by intros a (Hne & Hpos & _).
  - apply Page_clean_settled; cbn [inclusions exclusions page_locators actions
                                   set_actions set_page_locators];
      [apply filter_keeps_positive..|].
    eapply Forall_impl; [exact Hacts|]. by intros a (Hne & Hpos & Hu).
Qed.

(** ** What [auto] returns *)

Section AutoFacts.
Context `{Driver}.







(** X16: when no page of the domain is exact, abstract pages are not
    dropped, and the page returned is the first active one in the order
    of the registry. *)
Theorem auto_returns_first_active (b : Browser) (objects : list Page)
    (pre post : list Page) (q : Page) :
  Forall (fun x => Page_exact x = false) (domain_pages b objects) ->
  domain_pages b objects = pre ++ q :: post ->
  Forall (fun x => fst (fst (Page_active b x)) = false) pre ->
  fst (fst (Page_active b q)) = true ->
  auto_matching b objects = active_pages b objects /\
  fst (fst (auto b objects)) = snd (fst (Page_active b q)).
Proof.
  intros Hnoexact Hsplit Hpre Hq.
  assert (Hm : auto_matching b objects = active_pages b objects).
  { unfold auto_matching. cbn zeta.
    assert (Hex : existsb (fun r => Page_exact (snd (fst r))) (auto_scan b objects)
                  = false).
    { unfold auto_scan. clear Hsplit.
      induction Hnoexact as [|x xs Hx _ IH]; [done|]. cbn [map existsb].
      by rewrite Page_active_exact, Hx, IH. }
    by rewrite Hex. }
  split; [exact Hm|]. unfold auto. rewrite Hm.
  unfold active_pages, auto_scan. rewrite Hsplit, map_app, List.filter_app, map_app.
  assert (Hnil : List.filter (fun r => fst (fst r)) (map (Page_active b) pre) = []).
  { clear Hsplit. induction Hpre as [|x xs Hx _ IH]; [done|].
    cbn [map List.filter]. by rewrite Hx. }
  rewrite Hnil. cbn [map List.filter app]. by rewrite Hq.
Qed.

End AutoFacts.


Lemma auto_returns_first_active_witness :
  fst (fst (auto (H := demo_driver) demo_doc
              [mkPage "example.com" "{section}" "default"
                 (mkLocators [mkLocator "id" "banner" 0 0] []) [];
               demo_abstract_page]))
  = demo_abstract_page.
Proof.
  apply (auto_returns_first_active (H := demo_driver) demo_doc _
           [mkPage "example.com" "{section}" "default"
              (mkLocators [mkLocator "id" "banner" 0 0] []) []]
           [] demo_abstract_page).
  - repeat constructor.
  - reflexivity.
  - repeat constructor.
  - reflexivity.
Defined.

(** ** Action names *)










Section NameFacts.
Context `{Vocabulary}.

Lemma Action_post_init_frame (a : Action) :
  verb (Action_post_init a) = verb a /\ name (Action_post_init a) = name a.
Proof.
  unfold Action_post_init.
  by destruct (str_bool (verb a) && (length (locators a) <=? 1)%nat).
Qed.



(** X19: [__post_init__] keeps the verb, the name and the locators an
    action has and only appends locators with index 0 and score 0; it
    appends nothing when the verb is empty or the action has more than
    one locator; and run again on an action that had a locator it
    changes nothing more. *)
Theorem post_init_adds_defaults (a : Action) :
  verb (Action_post_init a) = verb a /\
  name (Action_post_init a) = name a /\
  (exists added,
     locators (Action_post_init a) = locators a ++ added /\
     Forall (fun l => index l = 0 /\ uses l = 0) added /\
     (str_bool (verb a) = false \/ (1 < length (locators a))%nat -> added = [])) /\
  ((1 <= length (locators a))%nat ->
   Action_post_init (Action_post_init a) = Action_post_init a).
Proof.
  destruct (Action_post_init_frame a) as [Hv Hn].
  split; [exact Hv|]. split; [exact Hn|]. unfold Action_post_init at 1 3 4.
  destruct (str_bool (verb a)) eqn:Hverb; cbn [andb].
  2:{ split; [|unfold Action_post_init; by rewrite Hverb].
      exists []. by rewrite app_nil_r. }
  destruct (Nat.leb_spec (length (locators a)) 1) as [Hle|Hgt].
  2:{ split.
      - exists []. by rewrite app_nil_r.
      - intros _. unfold Action_post_init. rewrite Hverb. cbn [andb].
        by destruct (Nat.leb_spec (length (locators a)) 1); [lia|]. }
  split.
  - eexists. cbn [locators set_locators]. split; [reflexivity|]. split.
    + apply Forall_forall. intros l Hl%list_elem_of_In.
      by apply in_map_iff in Hl as (mv & <- & _).
    + intros [Hf|Hlt]; [done|lia].
  - intros Hone. unfold Action_post_init.
    cbn [verb name locators set_locators]. rewrite Hverb. cbn [andb].
    rewrite length_app, length_map.
    destruct (Verb_get_default_locators (verb a) (name a)) as [|d ds].
    + cbn [map]. rewrite !app_nil_r. cbn [length].
      by destruct (Nat.leb_spec (length (locators a) + 0) 1).
    + cbn [length].
      by destruct (Nat.leb_spec (length (locators a) + S (length ds)) 1); [lia|].
Qed.

End NameFacts.

(** X20: [__dir__] lists the texts of the actions that have a verb and a
    name; afterwards the page holds a placeholder action, appended at
    the end only if it had none; and a second call gives the same names
    and changes nothing. *)
Theorem dir_keeps_placeholder (p : Page) :
  let names := fst (Page_dir p) in
  let p' := snd (Page_dir p) in
  existsb (fun a => negb (Action_bool a)) (actions p') = true /\
  (existsb (fun a => negb (Action_bool a)) (actions p) = true -> p' = p) /\
  (existsb (fun a => negb (Action_bool a)) (actions p) = false ->
   actions p' = actions p ++ [Action_default]) /\
  Page_dir p' = (names, p').
Proof.
  cbn zeta.
  assert (Hall : forall acts : list Action,
             forallb Action_bool acts
             = negb (existsb (fun a => negb (Action_bool a)) acts)).
  { induction acts as [|a acts IH]; [done|]. cbn. rewrite IH.
    by destruct (Action_bool a). }
  assert (Hn : fst (Page_dir p)
               = map Action_str (List.filter Action_bool (actions p)))
    by reflexivity.
  assert (Hp : snd (Page_dir p)
               = if existsb (fun a => negb (Action_bool a)) (actions p)
                 then p else set_actions (actions p ++ [Action_default]) p).
  { unfold Page_dir. cbn [snd]. rewrite Hall.
    by destruct (existsb _ (actions p)). }
  rewrite Hn, Hp.
  destruct (existsb (fun a => negb (Action_bool a)) (actions p)) eqn:Hex.
  - split; [done|]. split; [done|]. split; [done|].
    unfold Page_dir. by rewrite Hall, Hex.
  - assert (Hex' : existsb (fun a => negb (Action_bool a))
                     (actions p ++ [Action_default]) = true).
    { rewrite existsb_app. cbn. apply orb_true_r. }
    split; [exact Hex'|]. split; [done|]. split; [done|].
    unfold Page_dir. cbn [actions set_actions]. rewrite Hall, Hex'. cbn [negb].
    rewrite List.filter_app. cbn [List.filter Action_bool Action_default verb
                                   str_bool andb].
    by rewrite app_nil_r.
Qed.



Lemma post_init_adds_defaults_witness :
  Action_post_init (H := demo_vocabulary)
    (Action_post_init (H := demo_vocabulary)
       (mkAction "click" "go" [Locator_default]))
  = mkAction "click" "go"
      [Locator_default; mkLocator "text" "go" 0 0; mkLocator "value" "go" 0 0].
Proof.
  destruct (post_init_adds_defaults (H := demo_vocabulary)
              (mkAction "click" "go" [Locator_default])) as (_ & _ & _ & ->).
  - reflexivity.
  - cbn. lia.
Defined.

Lemma dir_keeps_placeholder_witness :
  actions (snd (Page_dir demo_gc_page))
  = actions demo_gc_page ++ [Action_default].
Proof.
  apply (dir_keeps_placeholder demo_gc_page). reflexivity.
Defined.

Lemma identification_frame_witness :
  Page_active (H := demo_driver) demo_doc
    (mkPage "example.com" "signup" "default"
       (mkLocators [mkLocator "id" "main" 0 5] []) [])
  = (false,
     mkPage "example.com" "signup" "default"
       (mkLocators [mkLocator "id" "main" 0 5] []) [],
     []).
Proof.
  apply (identification_frame (H := demo_driver) demo_doc
           (mkPage "example.com" "signup" "default"
              (mkLocators [mkLocator "id" "main" 0 5] []) [])).
  reflexivity.
Defined.

Lemma identification_saves_scores_witness :
  page_scores
    (snd (fst (Page_active (H := demo_driver) demo_doc
                 (mkPage "example.com" "login" "default"
                    (mkLocators [mkLocator "id" "main" 0 99] []) []))))
  = ([99], []).
Proof.
  apply (identification_saves_scores (H := demo_driver) demo_doc
           (mkPage "example.com" "login" "default"
              (mkLocators [mkLocator "id" "main" 0 99] []) [])).
  reflexivity.
Defined.

Lemma unforced_clean_accounts_witness :
  exists n p',
    Page_clean false demo_login_page
    = Some (n, p', if Nat.eqb n 0 then [] else [p']) /\
    p' = demo_login_page.
Proof.
  destruct (unforced_clean_accounts demo_login_page)
    as (n & p' & Heq & _ & _ & Hzero).
  exists n, p'. split; [exact Heq|]. apply Hzero.
  vm_compute in Heq. by injection Heq as <- _.
Defined.
